(** * The dashboard variable list editor ([VariablesEditView])

    A shallow embedding of the class [VariablesEditView] of
    [src/public/app/features/auth-config/fields.tsx] (second document of that
    file, lines 412-693): the handlers [onDelete], [onDuplicated],
    [onOrderChanged], [onEdit], [onTypeChange], [onGoBack] and
    [onDiscardChanges], together with the JavaScript array primitives they
    are written with ([findIndex], [some], [slice], [splice], indexing).

    - An array is a [list]; an index is a JavaScript number, here an integer
      [Z], because the handlers compare indices with [-1], with [0] and with
      [variables.length].
    - A handler reads and writes two objects: the view's own state
      ([editIndex], [originalVariableState]) and the state of the variable
      set ([variables]).  Both are fields of [EditorState], which also
      records what was written with [console.error].
    - A handler returns a [Completion]: it returns normally with the next
      state, throws (property access on [undefined]), or does not leave its
      [while] loop within the fuel the model gives it. *)

From stdpp Require Import base list strings pretty.
From Stdlib Require Import ZArith Lia Ascii.

Local Open Scope string_scope.
Local Open Scope list_scope.
Local Open Scope Z_scope.

(** ** The variable kinds *)

(** Modelled from the spec: the module [./variables/utils] (the type
    [EditableVariableType], the guard [isEditableVariableType], the factory
    [getVariableScene]) and the variable classes of [@grafana/scenes] are not
    among the sources.  The spec describes [type] as a tag from a fixed,
    closed set of kinds, one of which (the ad-hoc filter kind) is
    structurally distinct, and [config] as a kind-specific payload with
    defaults per kind.  What the spec leaves open is a field of this class:
    the set of tags, the payload, which tags are editable, which tag is
    built as an [AdHocFilterSet], and the default payload of each kind. *)
Class VariableKinds := {
  VariableType : Type;
  Config : Type;
  isEditableVariableType : VariableType → bool;
  isAdHocKind : VariableType → bool;
  defaultConfig : VariableType → Config;
}.

(** ** JavaScript array primitives *)

Section arrays.
Context {A : Type}.

(** [arr.length] *)
Definition len (arr : list A) : Z := Z.of_nat (length arr).

(** [arr[i]]: [undefined] ([None]) outside [0 .. length-1]. *)
Definition at_index (arr : list A) (i : Z) : option A :=
  if i <? 0 then None else arr !! Z.to_nat i.

(** [arr.findIndex(p)]: the first index whose element satisfies [p], or -1. *)
Definition findIndex (P : A → Prop) `{∀ x, Decision (P x)} (arr : list A) : Z :=
  match list_find P arr with
  | Some (i, _) => Z.of_nat i
  | None => -1
  end.

(** [arr.some(p)] *)
Definition some (p : A → bool) (arr : list A) : bool := existsb p arr.

(** The relative index of ECMAScript's [slice] and [splice]: a negative
    argument counts from the end, and the result is clamped to
    [0 .. length]. *)
Definition relative_index (length i : Z) : Z :=
  if i <? 0 then Z.max (length + i) 0 else Z.min i length.

(** [arr.slice(start, end)]; [end] omitted is [None]. *)
Definition slice (arr : list A) (start : Z) (end_ : option Z) : list A :=
  let k := relative_index (len arr) start in
  let final := relative_index (len arr) (default (len arr) end_) in
  take (Z.to_nat (Z.max (final - k) 0)) (drop (Z.to_nat k) arr).

(** [arr.splice(start, deleteCount, ...items)]: the removed elements and
    the array after the call. *)
Definition splice (arr : list A) (start deleteCount : Z) (items : list A)
  : list A * list A :=
  let actualStart := relative_index (len arr) start in
  let actualDeleteCount := Z.min (Z.max deleteCount 0) (len arr - actualStart) in
  (take (Z.to_nat actualDeleteCount) (drop (Z.to_nat actualStart) arr),
   take (Z.to_nat actualStart) arr ++ items
     ++ drop (Z.to_nat (actualStart + actualDeleteCount)) arr).
End arrays.

(** ** Variables and the editor state *)

Section model.
Context `{VariableKinds}.

(** [SceneVariableState]: the fields the spec's data model names. *)
Record SceneVariableState := {
  name : string;
  label : option string;
  type : VariableType;
  config : Config;
}.

(** A [SceneVariable] object, read through [.state]. *)
Record SceneVariable := { state : SceneVariableState }.

(** [variable.setState({ name: newName })] *)
Definition setState_name (newName : string) (v : SceneVariable) : SceneVariable :=
  {| state := {| name := newName; label := label (state v);
                 type := type (state v); config := config (state v) |} |}.

(** [variable.clone(withState)] with a complete state [withState]: a fresh
    object whose state is the object's state overwritten by [withState]. *)
Definition clone (v : SceneVariable) (withState : SceneVariableState) : SceneVariable :=
  {| state := withState |}.

(** The initial state handed to [getVariableScene]: [{ name, label }] in
    [onTypeChange] ([init_config] absent), a whole captured state in
    [onDiscardChanges]. *)
Record InitialState := {
  init_name : string;
  init_label : option string;
  init_config : option Config;
}.

Definition name_and_label (s : SceneVariableState) : InitialState :=
  {| init_name := name s; init_label := label s; init_config := None |}.

Definition whole_state (s : SceneVariableState) : InitialState :=
  {| init_name := name s; init_label := label s; init_config := Some (config s) |}.

(** What [getVariableScene] returns: a variable or an ad-hoc filter set. *)
Inductive SceneObject :=
| IsVariable (v : SceneVariable)
| IsAdHocFilterSet (init : InitialState).

(** Modelled from the spec: [getVariableScene] of [./variables/utils].
    It constructs a brand-new variable of the requested kind from the
    initial state; what the initial state does not give is that kind's
    default.  The structurally distinct ad-hoc filter kind is built as an
    [AdHocFilterSet] instead. *)
Definition getVariableScene (t : VariableType) (init : InitialState) : SceneObject :=
  if isAdHocKind t then IsAdHocFilterSet init
  else IsVariable
    {| state := {| name := init_name init; label := init_label init; type := t;
                   config := default (defaultConfig t) (init_config init) |} |}.

(** The state the handlers work on. *)
Record EditorState := {
  variables : list SceneVariable;
  editIndex : option Z;
  originalVariableState : option SceneVariableState;
  console : list string;
}.

Inductive Completion :=
| Normal (σ : EditorState)
| Throw (error : string)
| OutOfFuel.

(** [console.error(message)] *)
Definition console_error (message : string) (σ : EditorState) : EditorState :=
  {| variables := variables σ; editIndex := editIndex σ;
     originalVariableState := originalVariableState σ;
     console := console σ ++ [message] |}.

(** [this.getVariableSet().setState({ variables: updatedVariables })] *)
Definition setState_variables (updatedVariables : list SceneVariable)
    (σ : EditorState) : EditorState :=
  {| variables := updatedVariables; editIndex := editIndex σ;
     originalVariableState := originalVariableState σ;
     console := console σ |}.

(** [this.setState({ editIndex, originalVariableState })] *)
Definition setState_session (i : option Z) (s : option SceneVariableState)
    (σ : EditorState) : EditorState :=
  {| variables := variables σ; editIndex := i;
     originalVariableState := s; console := console σ |}.

(** [this.setState({ editIndex })] *)
Definition setState_editIndex (i : option Z) (σ : EditorState) : EditorState :=
  {| variables := variables σ; editIndex := i;
     originalVariableState := originalVariableState σ; console := console σ |}.

Definition getVariables (σ : EditorState) : list SceneVariable := variables σ.

(** The edit session: the two fields of the view's own state. *)
Definition session (σ : EditorState)
  : option Z * option SceneVariableState :=
  (editIndex σ, originalVariableState σ).

Definition names (vs : list SceneVariable) : list string :=
  (λ v, name (state v)) <$> vs.

(** ** The handlers *)

Definition getVariableIndex (identifier : string) (σ : EditorState) : Z :=
  findIndex (λ variable, name (state variable) = identifier) (getVariables σ).

Definition replaceEditVariable (newVariable : SceneObject) (σ : EditorState)
  : Completion :=
  let variableIndex := default (-1) (editIndex σ) in
  let variables := variables σ in
  match at_index variables variableIndex with
  | None => Normal (console_error "Variable not found" σ)
  | Some _ =>
    match newVariable with
    | IsAdHocFilterSet _ => Normal σ
    | IsVariable newVariable =>
      let updatedVariables :=
        slice variables 0 (Some variableIndex) ++ [newVariable]
          ++ slice variables (variableIndex + 1) None in
      Normal (setState_variables updatedVariables σ)
    end
  end.

Definition onDelete (identifier : string) (σ : EditorState) : Completion :=
  let variableIndex := getVariableIndex identifier σ in
  let variables := variables σ in
  if variableIndex =? -1 then Normal (console_error "Variable not found" σ)
  else
    let updatedVariables :=
      slice variables 0 (Some variableIndex)
        ++ slice variables (variableIndex + 1) None in
    Normal (setState_variables updatedVariables σ).

(** The candidate name built inside the loop of [onDuplicated]. *)
Definition numbered_copy (originalName : string) (copyNumber : nat) : string :=
  "copy_of_" +:+ originalName +:+ "_" +:+ pretty copyNumber.

(** The [k]-th name [onDuplicated] tries: the initial [newName] for
    [k = 0], the name built by the loop body for [k ≥ 1]. *)
Definition copy_name (originalName : string) (k : nat) : string :=
  match k with
  | O => "copy_of_" +:+ originalName
  | S _ => numbered_copy originalName k
  end.

(** The [while] loop of [onDuplicated], on the loop variables
    [copyNumber] and [newName]; [None] when the fuel runs out. *)
Fixpoint unique_name_loop (fuel : nat) (variables : list SceneVariable)
    (originalName : string) (copyNumber : nat) (newName : string)
  : option (nat * string) :=
  match fuel with
  | O => None
  | S fuel =>
    if some (λ v, bool_decide (name (state v) = newName)) variables then
      let copyNumber := S copyNumber in
      let newName := numbered_copy originalName copyNumber in
      unique_name_loop fuel variables originalName copyNumber newName
    else Some (copyNumber, newName)
  end.

Definition onDuplicated (identifier : string) (σ : EditorState) : Completion :=
  let variableIndex := getVariableIndex identifier σ in
  let variables := variables σ in
  if variableIndex =? -1 then Normal (console_error "Variable not found" σ)
  else
    match at_index variables variableIndex with
    | None => Throw "TypeError"
    | Some originalVariable =>
      let copyNumber := O in
      let newName := "copy_of_" +:+ name (state originalVariable) in
      match unique_name_loop (S (length variables)) variables
              (name (state originalVariable)) copyNumber newName with
      | None => OutOfFuel
      | Some (copyNumber, newName) =>
        let newVariable := clone originalVariable (state originalVariable) in
        let newVariable := setState_name newName newVariable in
        let updatedVariables :=
          slice variables 0 (Some (variableIndex + 1)) ++ [newVariable]
            ++ slice variables (variableIndex + 1) None in
        Normal (setState_variables updatedVariables σ)
      end
    end.

(** [movedItem[0]] is inserted as [take 1 movedItem]: past the index check
    [movedItem] is a one-element array ([splice_one_in_range] below).  The
    test [!this.getVariableSet()] is on an object and never holds. *)
Definition onOrderChanged (fromIndex toIndex : Z) (σ : EditorState) : Completion :=
  let variables := variables σ in
  if (fromIndex <? 0) || (fromIndex >=? len variables)
     || (toIndex <? 0) || (toIndex >=? len variables)
  then Normal (console_error "Invalid index" σ)
  else
    let updatedVariables := variables in
    let '(movedItem, updatedVariables) := splice updatedVariables fromIndex 1 [] in
    let '(_, updatedVariables) := splice updatedVariables toIndex 0 (take 1 movedItem) in
    Normal (setState_variables updatedVariables σ).

Definition onEdit (identifier : string) (σ : EditorState) : Completion :=
  let variableIndex := getVariableIndex identifier σ in
  if variableIndex =? -1 then Normal (console_error "Variable not found" σ)
  else
    match at_index (getVariables σ) variableIndex with
    | None => Throw "TypeError"
    | Some variable =>
      Normal (setState_session (Some variableIndex) (Some (state variable)) σ)
    end.

Definition onTypeChange (type : VariableType) (σ : EditorState) : Completion :=
  let variableIndex := default (-1) (editIndex σ) in
  let variables := variables σ in
  match at_index variables variableIndex with
  | None => Normal (console_error "Variable not found" σ)
  | Some variable =>
    let newVariable := getVariableScene type (name_and_label (state variable)) in
    replaceEditVariable newVariable σ
  end.

Definition onGoBack (σ : EditorState) : Completion :=
  Normal (setState_editIndex None σ).

Definition onDiscardChanges (σ : EditorState) : Completion :=
  let variables := variables σ in
  match editIndex σ, originalVariableState σ with
  | Some editIndex, Some originalVariableState =>
    match at_index variables editIndex with
    | None => Normal σ
    | Some _ =>
      let σ :=
        if isEditableVariableType (type originalVariableState) then
          match getVariableScene (type originalVariableState)
                  (whole_state originalVariableState) with
          | IsAdHocFilterSet _ => σ
          | IsVariable newVariable =>
            let updatedVariables :=
              slice variables 0 (Some editIndex) ++ [newVariable]
                ++ slice variables (editIndex + 1) None in
            setState_variables updatedVariables σ
          end
        else σ in
      Normal (setState_session None None σ)
    end
  | _, _ => Normal σ
  end.
End model.

(** ** The reordering of the spec *)

(** The spec's words for [reorder]: take the sequence, extract the element at
    [i], splice it back in at offset [j] of the resulting (shortened)
    sequence. *)
Definition extract_and_reinsert {A} (i j : nat) (l : list A) : list A :=
  match l !! i with
  | Some x => let rest := delete i l in take j rest ++ x :: drop j rest
  | None => l
  end.

(** ** A concrete set of kinds, for running the handlers *)

Module Sample.
Inductive kind := query | custom | textbox | adhoc | system.

Definition kinds : VariableKinds :=
  {| VariableType := kind;
     Config := list (string * string);
     isEditableVariableType := λ k, match k with system => false | _ => true end;
     isAdHocKind := λ k, match k with adhoc => true | _ => false end;
     defaultConfig := λ k,
       match k with
       | query => [("query", "")]
       | custom => [("options", "")]
       | textbox => [("value", "")]
       | adhoc | system => []
       end |}.

Definition var (n : string) (k : kind) (c : list (string * string))
  : @SceneVariable kinds :=
  {| state := {| name := n; label := None; type := (k : @VariableType kinds);
                 config := (c : @Config kinds) |} |}.

Definition editor (vs : list (@SceneVariable kinds)) : @EditorState kinds :=
  {| variables := vs; editIndex := None; originalVariableState := None;
     console := [] |}.

Definition editing (i : Z) (v : @SceneVariable kinds)
    (vs : list (@SceneVariable kinds)) : @EditorState kinds :=
  {| variables := vs; editIndex := Some i;
     originalVariableState := Some (state v); console := [] |}.

Definition x : @SceneVariable kinds :=
  {| state := {| name := "x"; label := Some "X";
                 type := (query : @VariableType kinds);
                 config := ([("query", "up")] : @Config kinds) |} |}.

Definition foo := var "foo" query [("query", "up")].
Definition bar := var "bar" custom [("options", "a,b")].
Definition baz := var "baz" textbox [("value", "z")].
Definition copy_of_foo := var "copy_of_foo" query [("query", "up")].
Definition copy_of_foo_1 := var "copy_of_foo_1" query [("query", "up")].
Definition copy_of_foo_2 := var "copy_of_foo_2" query [("query", "up")].
End Sample.

(** ** The variable a type change builds *)

(** The variable [onTypeChange] builds for a kind that is not built as an
    ad-hoc filter set: [getVariableScene type { name, label }]. *)
Definition retyped `{VariableKinds} (type : VariableType)
    (variable : SceneVariable) : SceneVariable :=
  {| state := {| name := name (state variable); label := label (state variable);
                 type := type; config := defaultConfig type |} |}.

(** ** What the settings page shows *)

(** The component [VariableEditorSettingsListView] returns one of two
    elements: the settings view of the variable at [editIndex], or the page
    with the list of all variables. *)
Inductive View `{VariableKinds} :=
| VariableEditorSettingsView (variable : SceneVariable)
| VariableEditorList (variables : list SceneVariable).

Definition VariableEditorSettingsListView `{VariableKinds}
    (model : EditorState) : View :=
  let variables := variables model in
  match editIndex model with
  | Some editIndex =>
    match at_index variables editIndex with
    | Some variable => VariableEditorSettingsView variable
    | None => VariableEditorList variables
    end
  | None => VariableEditorList variables
  end.

(** * Validation of the SSO settings form ([fieldMap]) *)

(** ** The tables of fields *)

(** [fields]: the settings of each provider. *)
Definition fields : list (string * list string) :=
  [ ("github", ["clientId"; "clientSecret"; "teamIds"; "allowedOrganizations"]);
    ("google", ["clientId"; "clientSecret"; "allowedDomains"]);
    ("gitlab", ["clientId"; "clientSecret"; "allowedOrganizations"; "teamIds"]);
    ("azuread", ["clientId"; "clientSecret"; "authUrl"; "tokenUrl"; "scopes";
                 "allowedGroups"; "allowedDomains"]);
    ("okta", ["clientId"; "clientSecret"; "authUrl"; "tokenUrl"; "apiUrl";
              "roleAttributePath"; "allowedGroups"; "allowedDomains"]) ].

(** [SSOSettingsField]: a field name, or [{ name, dependsOn }]. *)
Inductive SSOSettingsField :=
| Field (name : string)
| DependentField (name dependsOn : string).

Definition field_name (f : SSOSettingsField) : string :=
  match f with Field name | DependentField name _ => name end.

(** An element of a [Section]: [{ name, id, hidden?, fields }]. *)
Record FormSection := {
  section_name : string;
  section_id : string;
  section_hidden : option bool;
  section_fields : list SSOSettingsField;
}.

(** The four sections of [sectionFields.generic_oauth]. *)
Definition general_settings : FormSection :=
  {| section_name := "General settings"; section_id := "general";
     section_hidden := None;
     section_fields :=
       [ Field "name"; Field "clientId"; Field "clientSecret";
         Field "authStyle"; Field "scopes"; Field "authUrl";
         Field "tokenUrl"; Field "apiUrl"; Field "allowSignUp";
         Field "autoLogin"; Field "signoutRedirectUrl" ] |}.

Definition user_mapping : FormSection :=
  {| section_name := "User mapping"; section_id := "user";
     section_hidden := None;
     section_fields :=
       [ Field "nameAttributePath"; Field "loginAttributePath";
         Field "emailAttributeName"; Field "emailAttributePath";
         Field "idTokenAttributeName"; Field "roleAttributePath";
         Field "roleAttributeStrict"; Field "allowAssignGrafanaAdmin";
         Field "skipOrgRoleSync" ] |}.

Definition extra_security_measures : FormSection :=
  {| section_name := "Extra security measures"; section_id := "extra";
     section_hidden := None;
     section_fields :=
       [ Field "allowedOrganizations"; Field "allowedDomains";
         Field "defineAllowedGroups";
         DependentField "allowedGroups" "defineAllowedGroups";
         DependentField "groupsAttributePath" "defineAllowedGroups";
         Field "defineAllowedTeamsIds";
         DependentField "teamIds" "defineAllowedTeamsIds";
         DependentField "teamsUrl" "defineAllowedTeamsIds";
         DependentField "teamIdsAttributePath" "defineAllowedTeamsIds";
         Field "usePkce"; Field "useRefreshToken" ] |}.

Definition tls : FormSection :=
  {| section_name := "TLS"; section_id := "tls";
     section_hidden := None;
     section_fields :=
       [ Field "configureTLS"; Field "tlsSkipVerifyInsecure";
         Field "tlsClientCert"; Field "tlsClientKey";
         Field "tlsClientCa" ] |}.

Definition generic_oauth_sections : list FormSection :=
  [general_settings; user_mapping; extra_security_measures; tls].

(** [sectionFields] *)
Definition sectionFields : list (string * list FormSection) :=
  [("generic_oauth", generic_oauth_sections)].

(** The property names of the object [fieldMap(provider)] returns, in the
    order of the literal; they are the same for every provider. *)
Definition fieldMap_keys : list string :=
[
  "clientId"; "clientSecret"; "allowedOrganizations"; "allowedDomains";
  "authUrl"; "authStyle"; "tokenUrl"; "scopes"; "allowedGroups"; "apiUrl";
  "roleAttributePath"; "name"; "allowSignUp"; "autoLogin";
  "signoutRedirectUrl"; "emailAttributeName"; "emailAttributePath";
  "nameAttributePath"; "loginAttributePath"; "idTokenAttributeName";
  "roleAttributeStrict"; "allowAssignGrafanaAdmin"; "skipOrgRoleSync";
  "defineAllowedGroups"; "defineAllowedTeamsIds"; "usePkce";
  "useRefreshToken"; "configureTLS"; "tlsClientCa"; "tlsClientCert";
  "tlsClientKey"; "tlsSkipVerifyInsecure"; "groupsAttributePath"; "teamsUrl";
  "teamIdsAttributePath"; "teamIds" ].

(** The field names of all sections of a provider's form, in order. *)
Definition section_field_names (sections : list FormSection) : list string :=
  field_name <$> concat (section_fields <$> sections).

(** ** Regular expressions *)

(** The regular expressions of the validators, matched by derivatives.  A
    pattern written between [^] and [$] (without the [m] flag) and used with
    [.test] accepts a string exactly when the whole string is in the
    language of the expression between the anchors. *)
Inductive regex :=
| Empty
| Eps
| Chr (class : ascii → bool)
| Seq (r1 r2 : regex)
| Alt (r1 r2 : regex)
| Star (r : regex).

Fixpoint nullable (r : regex) : bool :=
  match r with
  | Empty => false
  | Eps => true
  | Chr _ => false
  | Seq r1 r2 => nullable r1 && nullable r2
  | Alt r1 r2 => nullable r1 || nullable r2
  | Star _ => true
  end.

Fixpoint deriv (c : ascii) (r : regex) : regex :=
  match r with
  | Empty => Empty
  | Eps => Empty
  | Chr class => if class c then Eps else Empty
  | Seq r1 r2 =>
    Alt (Seq (deriv c r1) r2) (if nullable r1 then deriv c r2 else Empty)
  | Alt r1 r2 => Alt (deriv c r1) (deriv c r2)
  | Star r => Seq (deriv c r) (Star r)
  end.

Fixpoint matches (r : regex) (s : string) : bool :=
  match s with
  | EmptyString => nullable r
  | String c s => matches (deriv c r) s
  end.

(** The language of a regular expression. *)
Inductive lang : regex → string → Prop :=
| lang_Eps : lang Eps ""
| lang_Chr class c : class c = true → lang (Chr class) (String c "")
| lang_Seq r1 r2 s1 s2 :
    lang r1 s1 → lang r2 s2 → lang (Seq r1 r2) (s1 +:+ s2)
| lang_Alt_l r1 r2 s : lang r1 s → lang (Alt r1 r2) s
| lang_Alt_r r1 r2 s : lang r2 s → lang (Alt r1 r2) s
| lang_Star_nil r : lang (Star r) ""
| lang_Star_cons r s1 s2 :
    lang r s1 → lang (Star r) s2 → lang (Star r) (s1 +:+ s2).

(** [x?] and [x+] *)
Definition Opt (r : regex) : regex := Alt r Eps.
Definition Plus (r : regex) : regex := Seq r (Star r).

(** The class [\d]: the ASCII digits [0] to [9]. *)
Definition digit (c : ascii) : bool :=
  (48 <=? nat_of_ascii c)%nat && (nat_of_ascii c <=? 57)%nat.

Definition is_char (c : ascii) (c' : ascii) : bool :=
  bool_decide (c' = c).

(** A string of ASCII digits. *)
Fixpoint all_digits (s : string) : bool :=
  match s with
  | EmptyString => true
  | String c s => digit c && all_digits s
  end.

(** ** [isNumeric] and the validation of [teamIds] *)

(** [/^-?\d+$/.test(value)] *)
Definition isNumeric (value : string) : bool :=
  matches (Seq (Opt (Chr (is_char "-"%char))) (Plus (Chr digit))) value.

(** An element of a select field's value: [{ label?, value? }], with the
    string values that the options typed into the select carry. *)
Record SelectableValue := {
  sv_label : option string;
  sv_value : option string;
}.

(** The value of a form field as the validators see it: a string, an array
    of selectable values (what the guard [isSelectableValue] of
    [./utils/guards] accepts), or anything else. *)
Inductive FieldValue :=
| StringValue (value : string)
| SelectableValues (value : list SelectableValue)
| OtherValue.

(** Truthiness of an optional string: [undefined] and [''] are falsy. *)
Definition truthy (value : option string) : bool :=
  match value with
  | Some s => negb (bool_decide (s = ""))
  | None => false
  end.

(** The callback [(v) => v?.value && isNumeric(v.value)], as [every] reads
    its result. *)
Definition has_numeric_value (v : SelectableValue) : bool :=
  truthy (sv_value v)
  && match sv_value v with Some s => isNumeric s | None => false end.

(** The [validation] property of a field: [validate] and [message]. *)
Record Validation := {
  validate : FieldValue → bool;
  message : string;
}.

(** The [validation] property of the [teamIds] entry of
    [fieldMap(provider)]. *)
Definition teamIds_validation (provider : string) : option Validation :=
  if bool_decide (provider = "github") then
    Some {| validate := λ value,
              match value with
              | StringValue value => isNumeric value
              | SelectableValues value => forallb has_numeric_value value
              | OtherValue => true
              end;
            message := "Team Ids must be numbers." |}
  else None.

(** * The API server options ([loadAPIGroupBuilders], Go) *)

(** What [loadAPIGroupBuilders] takes from other packages: the builders of
    the three groups and the installation of a builder's schema into
    [grafanaAPIServer.Scheme].  An [error] is its message. *)
Class APIGroupBuilders := {
  APIGroupBuilder : Type;
  Scheme : Type;
  NewTestingAPIBuilder : APIGroupBuilder;
  NewFeatureFlagAPIBuilder : APIGroupBuilder;
  InitializeDataSourceAPIServer : string → APIGroupBuilder + string;
  InstallSchema : APIGroupBuilder → Scheme → Scheme * option string;
}.

(** What a call leaves behind: [o.builders], the scheme, and the returned
    error ([None] for [nil]). *)
Record Loaded `{APIGroupBuilders} := {
  o_builders : list APIGroupBuilder;
  the_scheme : Scheme;
  returned : option string;
}.

(** The first loop, [for _, g := range args], on [o.builders]: the builders
    appended so far and the error it returned with, if any. *)
Fixpoint load_groups `{APIGroupBuilders} (args : list string)
    (builders : list APIGroupBuilder) : list APIGroupBuilder * option string :=
  match args with
  | [] => (builders, None)
  | g :: args =>
    if bool_decide (g = "example.grafana.app") then
      load_groups args (builders ++ [NewTestingAPIBuilder])
    else if bool_decide (g = "featuretoggle.grafana.app") then
      load_groups args (builders ++ [NewFeatureFlagAPIBuilder])
    else if bool_decide (g = "testdata.datasource.grafana.app") then
      match InitializeDataSourceAPIServer g with
      | inr err => (builders, Some err)
      | inl ds => load_groups args (builders ++ [ds])
      end
    else (builders, Some ("unknown group: " +:+ g))
  end.

(** The second loop, [for _, b := range o.builders]. *)
Fixpoint install_schemas `{APIGroupBuilders} (builders : list APIGroupBuilder)
    (scheme : Scheme) : Scheme * option string :=
  match builders with
  | [] => (scheme, None)
  | b :: builders =>
    match InstallSchema b scheme with
    | (scheme, Some err) => (scheme, Some err)
    | (scheme, None) => install_schemas builders scheme
    end
  end.

Definition loadAPIGroupBuilders `{APIGroupBuilders} (args : list string)
    (scheme : Scheme) : Loaded :=
  match load_groups args [] with
  | (builders, Some err) =>
    {| o_builders := builders; the_scheme := scheme; returned := Some err |}
  | (builders, None) =>
    if len builders <? 1 then
      {| o_builders := builders; the_scheme := scheme;
         returned :=
           Some "expected group name(s) in the command line arguments" |}
    else
      let '(scheme, err) := install_schemas builders scheme in
      {| o_builders := builders; the_scheme := scheme; returned := err |}
  end.

(** The group names the [switch] has a case for. *)
Definition known_group (g : string) : Prop :=
  g = "example.grafana.app" ∨ g = "featuretoggle.grafana.app"
  ∨ g = "testdata.datasource.grafana.app".

(** A concrete choice of builders, for running [loadAPIGroupBuilders]: a
    builder is its name, the scheme the list of installed names. *)
Definition sample_builders : APIGroupBuilders :=
  {| APIGroupBuilder := string;
     Scheme := list string;
     NewTestingAPIBuilder := "example";
     NewFeatureFlagAPIBuilder := "featuretoggle";
     InitializeDataSourceAPIServer := λ g, inl ("datasource " +:+ g);
     InstallSchema := λ b scheme, (scheme ++ [b], None) |}.

(** ** Facts about the array primitives *)

Section array_facts.
Context {A : Type}.
Implicit Types (arr : list A) (i j : Z).

Lemma at_index_Some arr i x :
  at_index arr i = Some x ↔ 0 ≤ i ∧ arr !! Z.to_nat i = Some x.
Proof.
  unfold at_index. destruct (Z.ltb_spec i 0).
  - split; [done|]. intros [? _]. lia.
  - split; [by intros ->|]. by intros [_ ->].
Qed.

Lemma at_index_of_nat arr (n : nat) : at_index arr (Z.of_nat n) = arr !! n.
Proof.
  unfold at_index. destruct (Z.ltb_spec (Z.of_nat n) 0); [lia|].
  by rewrite Nat2Z.id.
Qed.

Lemma slice_prefix arr i :
  0 ≤ i → slice arr 0 (Some i) = take (Z.to_nat i) arr.
Proof.
  intros Hi. unfold slice, relative_index, len; simpl.
  destruct (Z.ltb_spec i 0); [lia|].
  rewrite (Z.min_l 0) by lia. simpl. rewrite drop_0.
  destruct (Z.le_ge_cases i (Z.of_nat (length arr))).
  - rewrite Z.min_l, Z.max_l by lia. by rewrite Z.sub_0_r.
  - rewrite Z.min_r, Z.max_l by lia. rewrite Z.sub_0_r, Nat2Z.id.
    rewrite !take_ge by lia. done.
Qed.

Lemma slice_suffix arr i :
  0 ≤ i → slice arr i None = drop (Z.to_nat i) arr.
Proof.
  intros Hi. unfold slice, relative_index, len; simpl.
  destruct (Z.ltb_spec i 0); [lia|].
  destruct (Z.ltb_spec (Z.of_nat (length arr)) 0); [lia|].
  rewrite (Z.min_id (Z.of_nat (length arr))).
  destruct (Z.le_ge_cases i (Z.of_nat (length arr))).
  - rewrite Z.min_l by lia. apply take_ge. rewrite length_drop. lia.
  - rewrite Z.min_r by lia. rewrite !drop_ge by lia. by rewrite take_nil.
Qed.

Lemma splice_remove_one arr i :
  0 ≤ i < len arr →
  splice arr i 1 [] =
    (take 1 (drop (Z.to_nat i) arr),
     take (Z.to_nat i) arr ++ drop (S (Z.to_nat i)) arr).
Proof.
  unfold len. intros Hi. unfold splice, relative_index, len.
  destruct (Z.ltb_spec i 0); [lia|].
  rewrite (Z.min_l i) by lia. rewrite (Z.max_l 1 0) by lia.
  rewrite (Z.min_l 1) by lia. simpl.
  replace (Z.to_nat (i + 1)) with (S (Z.to_nat i)) by lia. done.
Qed.

Lemma splice_insert arr j items :
  0 ≤ j →
  splice arr j 0 items =
    ([], take (Z.to_nat j) arr ++ items ++ drop (Z.to_nat j) arr).
Proof.
  intros Hj. unfold splice, relative_index, len.
  destruct (Z.ltb_spec j 0); [lia|].
  rewrite (Z.max_id 0).
  destruct (Z.le_ge_cases j (Z.of_nat (length arr))).
  - rewrite (Z.min_l j) by lia. rewrite (Z.min_l 0) by lia.
    rewrite Z.add_0_r. done.
  - rewrite (Z.min_r j) by lia. rewrite (Z.min_l 0) by lia.
    rewrite Z.add_0_r, Nat2Z.id. simpl.
    rewrite (take_ge arr (Z.to_nat j)), (drop_ge arr (Z.to_nat j)) by lia.
    rewrite firstn_all, (drop_ge arr (length arr)) by lia. done.
Qed.

(** Past the index check of [onOrderChanged], [splice(fromIndex, 1)]
    removes exactly the element at [fromIndex]. *)
Lemma splice_one_in_range arr i :
  0 ≤ i < len arr →
  ∃ x, arr !! Z.to_nat i = Some x ∧ (splice arr i 1 []).1 = [x].
Proof.
  intros Hi. rewrite splice_remove_one by done. simpl.
  destruct (lookup_lt_is_Some_2 arr (Z.to_nat i)) as [x Hx].
  { unfold len in Hi. lia. }
  exists x. split; [done|].
  rewrite (drop_S _ _ _ Hx). done.
Qed.

Section find.
Context (P : A → Prop) `{∀ x, Decision (P x)}.

Lemma findIndex_absent arr :
  findIndex P arr = -1 ↔ Forall (λ x, ¬ P x) arr.
Proof.
  unfold findIndex. destruct (list_find P arr) as [[n x]|] eqn:Hfind.
  - split; [lia|]. intros Hnone.
    pose proof (proj2 (list_find_None P arr) Hnone). congruence.
  - split; [|done]. intros _. exact (proj1 (list_find_None P arr) Hfind).
Qed.

Lemma findIndex_present arr :
  findIndex P arr ≠ -1 →
  ∃ (n : nat) x, findIndex P arr = Z.of_nat n ∧ arr !! n = Some x ∧ P x
    ∧ ∀ m y, arr !! m = Some y → (m < n)%nat → ¬ P y.
Proof.
  unfold findIndex. destruct (list_find P arr) as [[n x]|] eqn:Hfind; [|done].
  intros _. apply list_find_Some in Hfind as (Hn & HP & Hleast).
  exists n, x. eauto.
Qed.
End find.
End array_facts.

(** ** The names tried by [onDuplicated] *)

Section copy_names.
Implicit Types (orig : string) (k : nat).

Lemma append_empty_r (s : string) : s +:+ "" = s.
Proof.
  induction s as [|c s IH]; [done|].
  change (String c (s +:+ "") = String c s). by rewrite IH.
Qed.

Lemma copy_name_succ orig k :
  copy_name orig (S k) = numbered_copy orig (S k).
Proof. done. Qed.

Lemma copy_name_inj orig : Inj (=) (=) (copy_name orig).
Proof.
  intros [|k] [|k']; unfold copy_name, numbered_copy; intros Heq; [done|..].
  - apply (inj (String.app _)) in Heq.
    rewrite <- (append_empty_r orig) in Heq at 1.
    by apply (inj (String.app _)) in Heq.
  - apply (inj (String.app _)) in Heq.
    rewrite <- (append_empty_r orig) in Heq at 2.
    by apply (inj (String.app _)) in Heq.
  - do 3 apply (inj (String.app _)) in Heq.
    by apply (inj pretty) in Heq.
Qed.
End copy_names.

(** ** Looking a variable up by name *)

Section lookup_facts.
Context `{VariableKinds}.
Implicit Types (σ : EditorState) (vs : list SceneVariable) (n : string).

Lemma names_app vs1 vs2 : names (vs1 ++ vs2) = names vs1 ++ names vs2.
Proof. apply fmap_app. Qed.

Lemma length_names vs : length (names vs) = length vs.
Proof. apply length_fmap. Qed.

Lemma absent_Forall n vs :
  n ∉ names vs ↔ Forall (λ v, ¬ (name (state v) = n)) vs.
Proof.
  rewrite Forall_forall. unfold names. rewrite list_elem_of_fmap. split.
  - intros Hn v Hv Heq. apply Hn. eauto.
  - intros Hall (v & -> & Hv). by apply (Hall v).
Qed.

Lemma getVariableIndex_absent n σ :
  n ∉ names (variables σ) ↔ getVariableIndex n σ = -1.
Proof.
  unfold getVariableIndex, getVariables.
  by rewrite findIndex_absent, absent_Forall.
Qed.

(** A name that is present is found at its first occurrence. *)
Lemma getVariableIndex_present n σ :
  n ∈ names (variables σ) →
  ∃ l1 v l2,
    variables σ = l1 ++ v :: l2 ∧ name (state v) = n ∧ (n ∉ names l1)
    ∧ getVariableIndex n σ = len l1.
Proof.
  intros Hin.
  assert (getVariableIndex n σ ≠ -1) as Hfound.
  { intros Heq. by apply getVariableIndex_absent in Heq. }
  unfold getVariableIndex, getVariables in *.
  apply findIndex_present in Hfound as (i & v & Hidx & Hlook & Hname & Hleast).
  exists (take i (variables σ)), v, (drop (S i) (variables σ)).
  split_and!.
  - by rewrite take_drop_middle.
  - done.
  - apply absent_Forall, Forall_lookup. intros m y Hy.
    apply lookup_take_Some in Hy as [Hy Hm]. by eapply Hleast.
  - rewrite Hidx. unfold len. rewrite length_take.
    apply lookup_lt_Some in Hlook. lia.
Qed.

Lemma some_name vs (s : string) :
  some (λ v, bool_decide (name (state v) = s)) vs = bool_decide (s ∈ names vs).
Proof.
  induction vs as [|v vs IH]; [done|].
  change (names (v :: vs)) with (name (state v) :: names vs).
  simpl. rewrite IH.
  destruct (decide (name (state v) = s)) as [Heq|Hne].
  - rewrite (bool_decide_eq_true_2 _ Heq). simpl. symmetry.
    apply bool_decide_eq_true_2. rewrite <- Heq. apply elem_of_cons. by left.
  - rewrite (bool_decide_eq_false_2 _ Hne). simpl.
    apply bool_decide_ext. rewrite elem_of_cons.
    split; [by right|]. by intros [Heq|Hin]; [destruct Hne|].
Qed.

(** The loop returns the first unused name at or after [copyNumber], given
    fuel for the names it has to skip. *)
Lemma unique_name_loop_first_unused fuel vs orig (k j : nat) :
  (k ≤ j)%nat → (j - k < fuel)%nat →
  (∀ m : nat, (k ≤ m < j)%nat → copy_name orig m ∈ names vs) →
  copy_name orig j ∉ names vs →
  unique_name_loop fuel vs orig k (copy_name orig k)
    = Some (j, copy_name orig j).
Proof.
  revert k. induction fuel as [|fuel IH]; intros k Hkj Hfuel Hused Hfree; [lia|].
  simpl. rewrite some_name.
  destruct (decide (k = j)) as [->|Hne].
  - by rewrite bool_decide_eq_false_2.
  - rewrite bool_decide_eq_true_2 by (apply Hused; lia).
    rewrite <- copy_name_succ. apply IH; [lia..| |done].
    intros m Hm. apply Hused. lia.
Qed.

(** Among the first [length vs + 1] names one is unused: the names are
    pairwise different and the collection has only [length vs] names. *)
Lemma first_unused_copy_name vs orig :
  ∃ j : nat, (j ≤ length vs)%nat ∧ (copy_name orig j ∉ names vs)
    ∧ ∀ m : nat, (m < j)%nat → copy_name orig m ∈ names vs.
Proof.
  destruct (list_find (λ j, copy_name orig j ∉ names vs)
              (seq 0 (S (length vs)))) as [[i j]|] eqn:Hfind.
  - apply list_find_Some in Hfind as (Hij & Hfree & Hleast).
    apply lookup_seq in Hij as [-> Hi]. exists i. split_and!; [lia|done|].
    intros m Hm. destruct (decide (copy_name orig m ∈ names vs)); [done|].
    exfalso. apply (Hleast m m); [|lia|done].
    apply lookup_seq. lia.
  - exfalso. apply list_find_None in Hfind.
    assert (copy_name orig <$> seq 0 (S (length vs)) ⊆+ names vs) as Hsub.
    { apply NoDup_submseteq.
      - pose proof (copy_name_inj orig).
        apply (NoDup_fmap_2 (copy_name orig)), NoDup_seq.
      - intros s (j & -> & Hj)%list_elem_of_fmap.
        rewrite Forall_forall in Hfind. specialize (Hfind j Hj).
        destruct (decide (copy_name orig j ∈ names vs)); [done|].
        by destruct Hfind. }
    apply submseteq_length in Hsub.
    rewrite length_fmap, length_seq, length_names in Hsub. lia.
Qed.
End lookup_facts.

(** ** Slicing an array around one of its elements *)

Section around.
Context {A : Type}.
Implicit Types (l : list A) (x : A).

Lemma len_app l1 l2 : len (l1 ++ l2) = len l1 + len l2.
Proof. unfold len. rewrite length_app. lia. Qed.

Lemma len_nonneg l1 : 0 ≤ len l1.
Proof. unfold len. lia. Qed.

Lemma at_index_middle l1 x l2 : at_index (l1 ++ x :: l2) (len l1) = Some x.
Proof. unfold len. rewrite at_index_of_nat. apply list_lookup_middle. done. Qed.

Lemma slice_before l1 x l2 : slice (l1 ++ x :: l2) 0 (Some (len l1)) = l1.
Proof.
  rewrite slice_prefix by apply len_nonneg. unfold len.
  rewrite Nat2Z.id. by rewrite take_app_length.
Qed.

Lemma slice_through l1 x l2 :
  slice (l1 ++ x :: l2) 0 (Some (len l1 + 1)) = l1 ++ [x].
Proof.
  pose proof (len_nonneg l1).
  rewrite slice_prefix by lia. unfold len.
  replace (Z.to_nat (Z.of_nat (length l1) + 1)) with (length (l1 ++ [x])).
  - rewrite (cons_middle x l1 l2), app_assoc. by rewrite take_app_length.
  - rewrite length_app. simpl. lia.
Qed.

Lemma slice_after l1 x l2 : slice (l1 ++ x :: l2) (len l1 + 1) None = l2.
Proof.
  pose proof (len_nonneg l1).
  rewrite slice_suffix by lia. unfold len.
  replace (Z.to_nat (Z.of_nat (length l1) + 1)) with (length (l1 ++ [x])).
  - rewrite (cons_middle x l1 l2), app_assoc. by rewrite drop_app_length.
  - rewrite length_app. simpl. lia.
Qed.
End around.

(** ** What each handler computes *)

Section handler_facts.
Context `{VariableKinds}.
Implicit Types (σ : EditorState) (vs l : list SceneVariable) (n : string).

Lemma len_ne_minus_one vs : (len vs =? -1) = false.
Proof. apply Z.eqb_neq. pose proof (len_nonneg vs). lia. Qed.

Lemma onDelete_absent n σ :
  n ∉ names (variables σ) →
  onDelete n σ = Normal (console_error "Variable not found" σ).
Proof.
  intros Hn%getVariableIndex_absent. unfold onDelete. by rewrite Hn.
Qed.

(** [onDelete] removes the first variable named [n]. *)
Lemma onDelete_present n σ :
  n ∈ names (variables σ) →
  ∃ l1 v l2,
    variables σ = l1 ++ v :: l2 ∧ name (state v) = n ∧ (n ∉ names l1)
    ∧ onDelete n σ = Normal (setState_variables (l1 ++ l2) σ).
Proof.
  intros (l1 & v & l2 & Hvs & Hname & Hfirst & Hidx)%getVariableIndex_present.
  exists l1, v, l2. split_and!; [done..|].
  unfold onDelete. rewrite Hidx, len_ne_minus_one, Hvs.
  by rewrite slice_before, slice_after.
Qed.

Lemma onDuplicated_absent n σ :
  n ∉ names (variables σ) →
  onDuplicated n σ = Normal (console_error "Variable not found" σ).
Proof.
  intros Hn%getVariableIndex_absent. unfold onDuplicated. by rewrite Hn.
Qed.

(** [onDuplicated] inserts, right after the first variable named [n], a
    copy of it under the first unused name among [copy_name n 0],
    [copy_name n 1], ... *)
Lemma onDuplicated_present n σ :
  n ∈ names (variables σ) →
  ∃ l1 v l2 (k : nat),
    variables σ = l1 ++ v :: l2 ∧ name (state v) = n ∧ (n ∉ names l1)
    ∧ (copy_name n k ∉ names (variables σ))
    ∧ (∀ m : nat, (m < k)%nat → copy_name n m ∈ names (variables σ))
    ∧ onDuplicated n σ =
        Normal (setState_variables
                  (l1 ++ v :: setState_name (copy_name n k) v :: l2) σ).
Proof.
  intros (l1 & v & l2 & Hvs & Hname & Hfirst & Hidx)%getVariableIndex_present.
  destruct (first_unused_copy_name (variables σ) n) as (k & Hk & Hfree & Hused).
  exists l1, v, l2, k. split_and!; [done..|].
  unfold onDuplicated. rewrite Hidx, len_ne_minus_one.
  rewrite Hvs at 1. rewrite at_index_middle, Hname.
  change ("copy_of_" +:+ n) with (copy_name n 0).
  rewrite (unique_name_loop_first_unused _ _ _ 0 k); [|lia|lia| |done].
  - rewrite Hvs, slice_through, slice_after.
    by rewrite <- app_assoc.
  - intros m Hm. apply Hused. lia.
Qed.

Lemma index_check_fails vs (i j : Z) :
  (i <? 0) || (i >=? len vs) || (j <? 0) || (j >=? len vs) = false
  ↔ 0 ≤ i < len vs ∧ 0 ≤ j < len vs.
Proof.
  rewrite !orb_false_iff, !Z.ltb_ge, !Z.geb_leb, !Z.leb_gt. lia.
Qed.

Lemma onOrderChanged_out_of_range (i j : Z) σ :
  ¬ (0 ≤ i < len (variables σ) ∧ 0 ≤ j < len (variables σ)) →
  onOrderChanged i j σ = Normal (console_error "Invalid index" σ).
Proof.
  intros Hout. unfold onOrderChanged.
  destruct ((i <? 0) || (i >=? len (variables σ)) || (j <? 0)
            || (j >=? len (variables σ))) eqn:Hcheck; [done|].
  by apply index_check_fails in Hcheck.
Qed.

(** Within range, [onOrderChanged] is the reordering of the spec. *)
Lemma onOrderChanged_in_range (i j : Z) σ :
  0 ≤ i < len (variables σ) → 0 ≤ j < len (variables σ) →
  onOrderChanged i j σ =
    Normal (setState_variables
              (extract_and_reinsert (Z.to_nat i) (Z.to_nat j) (variables σ)) σ).
Proof.
  intros Hi Hj. unfold onOrderChanged.
  rewrite (proj2 (index_check_fails (variables σ) i j)) by done.
  rewrite splice_remove_one by done.
  rewrite splice_insert by lia.
  unfold extract_and_reinsert.
  destruct (lookup_lt_is_Some_2 (variables σ) (Z.to_nat i)) as [x Hx].
  { unfold len in Hi. lia. }
  by rewrite Hx, (drop_S _ _ _ Hx), delete_take_drop.
Qed.
End handler_facts.

(** ** Deleting *)

Section delete.
Context `{VariableKinds}.
Implicit Types (σ : EditorState) (vs l : list SceneVariable) (n : string).

Lemma filter_absent n l :
  n ∉ names l → filter (λ v, name (state v) ≠ n) l = l.
Proof.
  intros Hn%absent_Forall. induction Hn as [|v l Hv _ IH]; [done|].
  rewrite filter_cons_True by done. by rewrite IH.
Qed.

Lemma filter_remove_only n l1 v l2 :
  name (state v) = n → n ∉ names l1 → n ∉ names l2 →
  filter (λ v, name (state v) ≠ n) (l1 ++ v :: l2) = l1 ++ l2.
Proof.
  intros Hv Hn1 Hn2. rewrite filter_app, filter_cons_False by (by intros []).
  by rewrite !filter_absent.
Qed.
End delete.

(** C1.  In a collection (at most one variable per name, the invariant of
    the data model) that has a variable named [n], [onDelete n] returns
    normally with a collection one shorter, in which no variable is named
    [n], and which is the old collection without the variables named [n]:
    what remains is in its old order. *)
Theorem onDelete_removes_the_named_variable `{VariableKinds}
    (σ : EditorState) (n : string) :
  n ∈ names (variables σ) →
  NoDup (names (variables σ)) →
  ∃ σ', onDelete n σ = Normal σ'
    ∧ length (variables σ') = (length (variables σ) - 1)%nat
    ∧ (n ∉ names (variables σ'))
    ∧ variables σ' = filter (λ v, name (state v) ≠ n) (variables σ).
Proof.
  intros (l1 & v & l2 & Hvs & Hv & Hfirst & Hdel)%onDelete_present Hinv.
  rewrite Hvs in Hinv. rewrite names_app in Hinv.
  apply NoDup_app in Hinv as (_ & _ & Hinv).
  change (names (v :: l2)) with (name (state v) :: names l2) in Hinv.
  apply NoDup_cons in Hinv as [Hrest _]. rewrite Hv in Hrest.
  eexists. split; [exact Hdel|]. simpl. rewrite Hvs. split_and!.
  - rewrite !length_app. simpl. lia.
  - rewrite names_app, elem_of_app. by intros [?|?].
  - by rewrite filter_remove_only.
Qed.

Lemma onDelete_removes_the_named_variable_witness :
  let σ := Sample.editor [Sample.foo; Sample.bar; Sample.baz] in
  "bar" ∈ names (variables σ) ∧ NoDup (names (variables σ))
  ∧ ∃ σ', onDelete "bar" σ = Normal σ'
      ∧ length (variables σ') = (length (variables σ) - 1)%nat
      ∧ ("bar" ∉ names (variables σ'))
      ∧ variables σ' = filter (λ v, name (state v) ≠ "bar") (variables σ).
Proof.
  assert ("bar" ∈ names [Sample.foo; Sample.bar; Sample.baz]) as Hin
    by compute_done.
  assert (NoDup (names [Sample.foo; Sample.bar; Sample.baz])) as Hinv
    by compute_done.
  split; [exact Hin|]. split; [exact Hinv|].
  exact (@onDelete_removes_the_named_variable Sample.kinds
           (Sample.editor [Sample.foo; Sample.bar; Sample.baz]) "bar" Hin Hinv).
Defined.

(** ** Failing operations *)

Lemma onEdit_absent `{VariableKinds} (σ : EditorState) (n : string) :
  n ∉ names (variables σ) →
  onEdit n σ = Normal (console_error "Variable not found" σ).
Proof.
  intros Hn%getVariableIndex_absent. unfold onEdit. by rewrite Hn.
Qed.

(** C2.  A delete, duplicate or begin-edit for a name the collection does
    not have, and a reorder with an index outside [0 .. length-1], return
    normally (no exception), having written their message with
    [console.error] and nothing else: [console_error] leaves the variables
    and the edit session as they were. *)
Theorem failing_operations_report_and_change_nothing `{VariableKinds}
    (σ : EditorState) (n : string) (fromIndex toIndex : Z) :
  n ∉ names (variables σ) →
  ¬ (0 ≤ fromIndex < len (variables σ) ∧ 0 ≤ toIndex < len (variables σ)) →
  onDelete n σ = Normal (console_error "Variable not found" σ)
  ∧ onDuplicated n σ = Normal (console_error "Variable not found" σ)
  ∧ onEdit n σ = Normal (console_error "Variable not found" σ)
  ∧ onOrderChanged fromIndex toIndex σ = Normal (console_error "Invalid index" σ)
  ∧ ∀ message,
      variables (console_error message σ) = variables σ
      ∧ session (console_error message σ) = session σ
      ∧ console (console_error message σ) = console σ ++ [message].
Proof.
  intros Hn Hout. split_and!.
  - by apply onDelete_absent.
  - by apply onDuplicated_absent.
  - by apply onEdit_absent.
  - by apply onOrderChanged_out_of_range.
  - done.
Qed.

Lemma failing_operations_report_and_change_nothing_witness :
  let σ := Sample.editor [Sample.foo; Sample.bar] in
  ("baz" ∉ names (variables σ))
  ∧ ¬ (0 ≤ 0 < len (variables σ) ∧ 0 ≤ 2 < len (variables σ))
  ∧ onDelete "baz" σ = Normal (console_error "Variable not found" σ)
  ∧ onDuplicated "baz" σ = Normal (console_error "Variable not found" σ)
  ∧ onEdit "baz" σ = Normal (console_error "Variable not found" σ)
  ∧ onOrderChanged 0 2 σ = Normal (console_error "Invalid index" σ)
  ∧ ∀ message,
      variables (console_error message σ) = variables σ
      ∧ session (console_error message σ) = session σ
      ∧ console (console_error message σ) = console σ ++ [message].
Proof.
  assert ("baz" ∉ names [Sample.foo; Sample.bar]) as Hn by compute_done.
  assert (¬ (0 ≤ 0 < len [Sample.foo; Sample.bar]
             ∧ 0 ≤ 2 < len [Sample.foo; Sample.bar])) as Hout.
  { unfold len. simpl. lia. }
  split; [exact Hn|]. split; [exact Hout|].
  exact (@failing_operations_report_and_change_nothing Sample.kinds
           (Sample.editor [Sample.foo; Sample.bar]) "baz" 0 2 Hn Hout).
Defined.

(** ** Duplicating *)

(** C3.  For a collection with a variable named [n], [onDuplicated n]
    returns normally with a collection one longer: the copy [c] stands right
    after the original [v] (the first variable named [n]), has the label,
    type and configuration of [v], and a name no variable had before. *)
Theorem onDuplicated_inserts_a_copy `{VariableKinds}
    (σ : EditorState) (n : string) :
  n ∈ names (variables σ) →
  ∃ σ' l1 v c l2,
    onDuplicated n σ = Normal σ'
    ∧ variables σ = l1 ++ v :: l2 ∧ name (state v) = n ∧ (n ∉ names l1)
    ∧ variables σ' = l1 ++ v :: c :: l2
    ∧ length (variables σ') = S (length (variables σ))
    ∧ label (state c) = label (state v)
    ∧ type (state c) = type (state v)
    ∧ config (state c) = config (state v)
    ∧ (name (state c) ∉ names (variables σ)).
Proof.
  intros (l1 & v & l2 & k & Hvs & Hv & Hfirst & Hfree & _ & Hdup)%onDuplicated_present.
  exists (setState_variables (l1 ++ v :: setState_name (copy_name n k) v :: l2) σ),
    l1, v, (setState_name (copy_name n k) v), l2.
  split_and!; try done.
  simpl. rewrite Hvs, !length_app. simpl. lia.
Qed.

Lemma onDuplicated_inserts_a_copy_witness :
  let σ := Sample.editor [Sample.foo; Sample.bar] in
  "foo" ∈ names (variables σ)
  ∧ ∃ σ' l1 v c l2,
      onDuplicated "foo" σ = Normal σ'
      ∧ variables σ = l1 ++ v :: l2 ∧ name (state v) = "foo" ∧ ("foo" ∉ names l1)
      ∧ variables σ' = l1 ++ v :: c :: l2
      ∧ length (variables σ') = S (length (variables σ))
      ∧ label (state c) = label (state v)
      ∧ type (state c) = type (state v)
      ∧ config (state c) = config (state v)
      ∧ (name (state c) ∉ names (variables σ)).
Proof.
  assert ("foo" ∈ names [Sample.foo; Sample.bar]) as Hin by compute_done.
  split; [exact Hin|].
  exact (@onDuplicated_inserts_a_copy Sample.kinds
           (Sample.editor [Sample.foo; Sample.bar]) "foo" Hin).
Defined.

Lemma copy_name_1 (n : string) : copy_name n 1 = "copy_of_" +:+ n +:+ "_1".
Proof. reflexivity. Qed.

(** C4, as the code has it.  The copy is named by the first unused name of
    the sequence [copy_of_<n>], [copy_of_<n>_1], [copy_of_<n>_2], ...
    ([copy_name n 0], [copy_name n 1], ...): every earlier name of the
    sequence is taken.  So when [copy_of_<n>] is taken and [copy_of_<n>_1]
    is not, the copy is named [copy_of_<n>_1]. *)
Theorem onDuplicated_names_the_copy `{VariableKinds}
    (σ : EditorState) (n : string) :
  n ∈ names (variables σ) →
  ∃ σ' l1 v c l2 (k : nat),
    onDuplicated n σ = Normal σ'
    ∧ variables σ = l1 ++ v :: l2 ∧ name (state v) = n ∧ (n ∉ names l1)
    ∧ variables σ' = l1 ++ v :: c :: l2
    ∧ name (state c) = copy_name n k
    ∧ (copy_name n k ∉ names (variables σ))
    ∧ (∀ m : nat, (m < k)%nat → copy_name n m ∈ names (variables σ))
    ∧ ("copy_of_" +:+ n ∈ names (variables σ) →
       "copy_of_" +:+ n +:+ "_1" ∉ names (variables σ) →
       name (state c) = "copy_of_" +:+ n +:+ "_1").
Proof.
  intros (l1 & v & l2 & k & Hvs & Hv & Hfirst & Hfree & Hused & Hdup)%onDuplicated_present.
  exists (setState_variables (l1 ++ v :: setState_name (copy_name n k) v :: l2) σ),
    l1, v, (setState_name (copy_name n k) v), l2, k.
  split_and!; try done.
  intros Htaken Hfree1. simpl. rewrite <- copy_name_1.
  destruct k as [|[|k]]; [by destruct Hfree|done|].
  destruct Hfree1. rewrite <- copy_name_1. apply Hused. lia.
Qed.

Lemma onDuplicated_names_the_copy_witness :
  let σ := Sample.editor [Sample.foo; Sample.copy_of_foo] in
  "foo" ∈ names (variables σ)
  ∧ ∃ σ' l1 v c l2 (k : nat),
      onDuplicated "foo" σ = Normal σ'
      ∧ variables σ = l1 ++ v :: l2 ∧ name (state v) = "foo" ∧ ("foo" ∉ names l1)
      ∧ variables σ' = l1 ++ v :: c :: l2
      ∧ name (state c) = copy_name "foo" k
      ∧ (copy_name "foo" k ∉ names (variables σ))
      ∧ (∀ m : nat, (m < k)%nat → copy_name "foo" m ∈ names (variables σ))
      ∧ ("copy_of_foo" ∈ names (variables σ) →
         "copy_of_foo_1" ∉ names (variables σ) →
         name (state c) = "copy_of_foo_1").
Proof.
  assert ("foo" ∈ names [Sample.foo; Sample.copy_of_foo]) as Hin by compute_done.
  split; [exact Hin|].
  exact (@onDuplicated_names_the_copy Sample.kinds
           (Sample.editor [Sample.foo; Sample.copy_of_foo]) "foo" Hin).
Defined.

(** C4 as stated fails: with [foo], [copy_of_foo] and [copy_of_foo_1] in the
    collection, the copy of [foo] is named [copy_of_foo_2]. *)
Lemma onDuplicated_copy_of_foo_1_taken :
  let σ := Sample.editor [Sample.foo; Sample.copy_of_foo; Sample.copy_of_foo_1] in
  "foo" ∈ names (variables σ) ∧ "copy_of_foo" ∈ names (variables σ)
  ∧ onDuplicated "foo" σ =
      Normal (Sample.editor [Sample.foo; Sample.copy_of_foo_2;
                             Sample.copy_of_foo; Sample.copy_of_foo_1])
  ∧ name (state Sample.copy_of_foo_2) ≠ "copy_of_foo_1".
Proof. split_and!; compute_done. Qed.

(** ** Reordering *)

Section reorder.
Context {A : Type}.
Implicit Types (l : list A) (i j : nat).

Lemma extract_and_reinsert_Permutation i j l :
  extract_and_reinsert i j l ≡ₚ l.
Proof.
  unfold extract_and_reinsert. destruct (l !! i) as [x|] eqn:Hx; [|done].
  simpl. rewrite <- Permutation_middle, take_drop.
  symmetry. by apply delete_Permutation.
Qed.

Lemma extract_and_reinsert_same i l : extract_and_reinsert i i l = l.
Proof.
  unfold extract_and_reinsert. destruct (l !! i) as [x|] eqn:Hx; [|done].
  simpl. rewrite delete_take_drop.
  assert (length (take i l) = i) as Hlen.
  { rewrite length_take. apply lookup_lt_Some in Hx. lia. }
  rewrite <- Hlen at 1 4. rewrite take_app_length, drop_app_length.
  by apply take_drop_middle.
Qed.
End reorder.

(** C5.  With both indices in [0 .. length-1], [onOrderChanged] returns
    normally; the new collection is the old one with the element at
    [fromIndex] extracted and spliced back at offset [toIndex] of the
    shortened sequence, it is a permutation of the old one, and moving an
    element to its own index gives back the old collection. *)
Theorem onOrderChanged_is_extract_and_reinsert `{VariableKinds}
    (σ : EditorState) (fromIndex toIndex : Z) :
  0 ≤ fromIndex < len (variables σ) →
  0 ≤ toIndex < len (variables σ) →
  ∃ σ' σ'',
    onOrderChanged fromIndex toIndex σ = Normal σ'
    ∧ variables σ' =
        extract_and_reinsert (Z.to_nat fromIndex) (Z.to_nat toIndex) (variables σ)
    ∧ variables σ' ≡ₚ variables σ
    ∧ onOrderChanged fromIndex fromIndex σ = Normal σ''
    ∧ variables σ'' = variables σ.
Proof.
  intros Hfrom Hto.
  eexists _, _. split; [by apply onOrderChanged_in_range|]. simpl.
  split; [done|]. split; [apply extract_and_reinsert_Permutation|].
  split; [by apply onOrderChanged_in_range|]. simpl.
  apply extract_and_reinsert_same.
Qed.

Lemma onOrderChanged_is_extract_and_reinsert_witness :
  let σ := Sample.editor [Sample.foo; Sample.copy_of_foo; Sample.bar] in
  0 ≤ 0 < len (variables σ) ∧ 0 ≤ 2 < len (variables σ)
  ∧ ∃ σ' σ'',
      onOrderChanged 0 2 σ = Normal σ'
      ∧ variables σ' = extract_and_reinsert (Z.to_nat 0) (Z.to_nat 2) (variables σ)
      ∧ variables σ' ≡ₚ variables σ
      ∧ onOrderChanged 0 0 σ = Normal σ''
      ∧ variables σ'' = variables σ.
Proof.
  assert (0 ≤ 0 < len [Sample.foo; Sample.copy_of_foo; Sample.bar]) as Hfrom
    by (unfold len; simpl; lia).
  assert (0 ≤ 2 < len [Sample.foo; Sample.copy_of_foo; Sample.bar]) as Hto
    by (unfold len; simpl; lia).
  split; [exact Hfrom|]. split; [exact Hto|].
  exact (@onOrderChanged_is_extract_and_reinsert Sample.kinds
           (Sample.editor [Sample.foo; Sample.copy_of_foo; Sample.bar])
           0 2 Hfrom Hto).
Defined.

(** The example of the spec: moving index 0 to index 2. *)
Example onOrderChanged_0_2 :
  onOrderChanged 0 2 (Sample.editor [Sample.foo; Sample.copy_of_foo; Sample.bar])
  = Normal (Sample.editor [Sample.copy_of_foo; Sample.bar; Sample.foo]).
Proof. compute_done. Qed.

(** ** Edit sessions *)

Section sessions.
Context `{VariableKinds}.
Implicit Types (σ : EditorState) (vs : list SceneVariable) (i : Z).

(** The three-part array literal of [replaceEditVariable] and
    [onDiscardChanges] overwrites position [i]. *)
Lemma slices_replace vs i (v x : SceneVariable) :
  at_index vs i = Some v →
  slice vs 0 (Some i) ++ [x] ++ slice vs (i + 1) None = <[Z.to_nat i := x]> vs.
Proof.
  intros [Hi Hv]%at_index_Some.
  rewrite slice_prefix, slice_suffix by lia.
  replace (Z.to_nat (i + 1)) with (S (Z.to_nat i)) by lia.
  symmetry. apply insert_take_drop. by eapply lookup_lt_Some.
Qed.

Lemma replaceEditVariable_variable σ i (v newVariable : SceneVariable) :
  editIndex σ = Some i → at_index (variables σ) i = Some v →
  replaceEditVariable (IsVariable newVariable) σ =
    Normal (setState_variables (<[Z.to_nat i := newVariable]> (variables σ)) σ).
Proof.
  intros Hedit Hv. unfold replaceEditVariable. rewrite Hedit.
  change (default (-1) (Some i)) with i.
  rewrite Hv. by rewrite (slices_replace _ _ v).
Qed.

(** Built from a whole state of its own kind, a variable has that state. *)
Lemma getVariableScene_whole_state (s : SceneVariableState) :
  isAdHocKind (type s) = false →
  getVariableScene (type s) (whole_state s) = IsVariable {| state := s |}.
Proof.
  intros Hkind. unfold getVariableScene. rewrite Hkind. by destruct s.
Qed.
End sessions.

(** C6.  With an edit session on the variable [v] at [editIndex], and
    [newType] not built as an ad-hoc filter set, [onTypeChange newType]
    returns normally and overwrites position [editIndex], and nothing else,
    with a variable of kind [newType] that has the name and label of [v]
    and the default configuration of [newType]. *)
Theorem onTypeChange_replaces_in_place `{VariableKinds}
    (σ : EditorState) (newType : VariableType) (i : Z) (v : SceneVariable) :
  editIndex σ = Some i →
  at_index (variables σ) i = Some v →
  isAdHocKind newType = false →
  ∃ σ' v',
    onTypeChange newType σ = Normal σ'
    ∧ state v' = {| name := name (state v); label := label (state v);
                    type := newType; config := defaultConfig newType |}
    ∧ variables σ' = <[Z.to_nat i := v']> (variables σ)
    ∧ variables σ' !! Z.to_nat i = Some v'
    ∧ length (variables σ') = length (variables σ)
    ∧ session σ' = session σ.
Proof.
  intros Hedit Hv Hkind.
  eexists _, {| state := _ |}. split.
  - unfold onTypeChange. rewrite Hedit.
    change (default (-1) (Some i)) with i. rewrite Hv.
    unfold getVariableScene. rewrite Hkind.
    by apply replaceEditVariable_variable with v.
  - simpl. split_and!; try done.
    + apply list_lookup_insert_eq.
      apply at_index_Some in Hv as [_ Hv]. by eapply lookup_lt_Some.
    + apply length_insert.
Qed.

Lemma onTypeChange_replaces_in_place_witness :
  let σ := Sample.editing 1 Sample.x [Sample.foo; Sample.x; Sample.bar] in
  editIndex σ = Some 1
  ∧ at_index (variables σ) 1 = Some Sample.x
  ∧ @isAdHocKind Sample.kinds Sample.textbox = false
  ∧ ∃ σ' v',
      onTypeChange (Sample.textbox : @VariableType Sample.kinds) σ = Normal σ'
      ∧ state v' = {| name := "x"; label := Some "X";
                      type := (Sample.textbox : @VariableType Sample.kinds);
                      config := @defaultConfig Sample.kinds Sample.textbox |}
      ∧ variables σ' = <[Z.to_nat 1 := v']> (variables σ)
      ∧ variables σ' !! Z.to_nat 1 = Some v'
      ∧ length (variables σ') = length (variables σ)
      ∧ session σ' = session σ.
Proof.
  split; [reflexivity|]. split; [reflexivity|]. split; [reflexivity|].
  exact (@onTypeChange_replaces_in_place Sample.kinds
           (Sample.editing 1 Sample.x [Sample.foo; Sample.x; Sample.bar])
           Sample.textbox 1 Sample.x eq_refl eq_refl eq_refl).
Defined.

(** [onEdit] on a name that is present opens a session on its first
    occurrence and captures that variable's state. *)
Lemma onEdit_present `{VariableKinds} (σ : EditorState) (n : string) :
  n ∈ names (variables σ) →
  ∃ l1 v l2,
    variables σ = l1 ++ v :: l2 ∧ name (state v) = n ∧ (n ∉ names l1)
    ∧ onEdit n σ = Normal (setState_session (Some (len l1)) (Some (state v)) σ).
Proof.
  intros (l1 & v & l2 & Hvs & Hname & Hfirst & Hidx)%getVariableIndex_present.
  exists l1, v, l2. split_and!; [done..|].
  unfold onEdit, getVariables. rewrite Hidx, len_ne_minus_one, Hvs.
  by rewrite at_index_middle.
Qed.

(** C7.  For a name [n] of the collection whose variable is of an editable
    kind, [onEdit n] and then [onDiscardChanges] both return normally, and
    the collection after them is the collection before them. *)
Theorem onEdit_then_onDiscardChanges `{VariableKinds}
    (σ : EditorState) (n : string) :
  n ∈ names (variables σ) →
  (∀ v, v ∈ variables σ → name (state v) = n →
        isEditableVariableType (type (state v)) = true) →
  ∃ σ1,
    onEdit n σ = Normal σ1
    ∧ ∃ σ2, onDiscardChanges σ1 = Normal σ2 ∧ variables σ2 = variables σ.
Proof.
  intros (l1 & v & l2 & Hvs & Hname & Hfirst & Hedit)%onEdit_present Hkind.
  eexists. split; [exact Hedit|].
  assert (isEditableVariableType (type (state v)) = true) as Heditable.
  { apply Hkind; [|done]. rewrite Hvs, elem_of_app, elem_of_cons. auto. }
  unfold onDiscardChanges. cbn [editIndex originalVariableState variables setState_session].
  rewrite Hvs, at_index_middle, Heditable.
  destruct (isAdHocKind (type (state v))) eqn:Hadhoc.
  - unfold getVariableScene. rewrite Hadhoc. by eexists.
  - rewrite getVariableScene_whole_state by done.
    rewrite (slices_replace _ _ v) by apply at_index_middle.
    eexists. split; [done|]. simpl. unfold len. rewrite Nat2Z.id.
    rewrite <- (Nat.add_0_r (length l1)), insert_app_r. by destruct v.
Qed.

Lemma onEdit_then_onDiscardChanges_witness :
  let σ := Sample.editor [Sample.foo; Sample.bar] in
  "bar" ∈ names (variables σ)
  ∧ (∀ v, v ∈ variables σ → name (state v) = "bar" →
          isEditableVariableType (type (state v)) = true)
  ∧ ∃ σ1,
      onEdit "bar" σ = Normal σ1
      ∧ ∃ σ2, onDiscardChanges σ1 = Normal σ2 ∧ variables σ2 = variables σ.
Proof.
  assert ("bar" ∈ names [Sample.foo; Sample.bar]) as Hin by compute_done.
  assert (∀ v : @SceneVariable Sample.kinds,
            v ∈ [Sample.foo; Sample.bar] → name (state v) = "bar" →
            isEditableVariableType (type (state v)) = true) as Hkind.
  { intros v Hv _. apply elem_of_cons in Hv as [->|Hv]; [reflexivity|].
    apply elem_of_cons in Hv as [->|Hv]; [reflexivity|].
    by apply elem_of_nil in Hv. }
  split; [exact Hin|]. split; [exact Hkind|].
  exact (@onEdit_then_onDiscardChanges Sample.kinds
           (Sample.editor [Sample.foo; Sample.bar]) "bar" Hin Hkind).
Defined.

(** C8.  With an edit session on a variable at [editIndex], [onTypeChange]
    to a kind that is built as an ad-hoc filter set returns normally and
    changes nothing: the collection (and the rest of the state) is as it
    was. *)
Theorem onTypeChange_adhoc_changes_nothing `{VariableKinds}
    (σ : EditorState) (newType : VariableType) (i : Z) (v : SceneVariable) :
  editIndex σ = Some i →
  at_index (variables σ) i = Some v →
  isAdHocKind newType = true →
  ∃ σ', onTypeChange newType σ = Normal σ'
    ∧ variables σ' = variables σ
    ∧ σ' = σ.
Proof.
  intros Hedit Hv Hkind. exists σ. split; [|done].
  unfold onTypeChange, replaceEditVariable. rewrite Hedit.
  change (default (-1) (Some i)) with i. rewrite Hv.
  unfold getVariableScene. by rewrite Hkind.
Qed.

Lemma onTypeChange_adhoc_changes_nothing_witness :
  let σ := Sample.editing 1 Sample.x [Sample.foo; Sample.x; Sample.bar] in
  editIndex σ = Some 1
  ∧ at_index (variables σ) 1 = Some Sample.x
  ∧ @isAdHocKind Sample.kinds Sample.adhoc = true
  ∧ ∃ σ', onTypeChange (Sample.adhoc : @VariableType Sample.kinds) σ = Normal σ'
      ∧ variables σ' = variables σ
      ∧ σ' = σ.
Proof.
  split; [reflexivity|]. split; [reflexivity|]. split; [reflexivity|].
  exact (@onTypeChange_adhoc_changes_nothing Sample.kinds
           (Sample.editing 1 Sample.x [Sample.foo; Sample.x; Sample.bar])
           Sample.adhoc 1 Sample.x eq_refl eq_refl eq_refl).
Defined.

(** C9, as the code has it.  [onDiscardChanges] always returns normally.
    Called with [editIndex] and the captured state both set and a variable
    at [editIndex], it leaves both unset.  Called with [editIndex] or the
    captured state unset, it returns at once and changes nothing. *)
Theorem onDiscardChanges_clears_an_open_session `{VariableKinds}
    (σ : EditorState) :
  ∃ σ',
    onDiscardChanges σ = Normal σ'
    ∧ ((∃ i s v, editIndex σ = Some i ∧ originalVariableState σ = Some s
                 ∧ at_index (variables σ) i = Some v) →
       editIndex σ' = None ∧ originalVariableState σ' = None)
    ∧ (editIndex σ = None ∨ originalVariableState σ = None → σ' = σ).
Proof.
  unfold onDiscardChanges.
  destruct (editIndex σ) as [i|] eqn:Hedit;
    destruct (originalVariableState σ) as [s|] eqn:Hsnap.
  - destruct (at_index (variables σ) i) as [v|] eqn:Hv.
    + eexists. split; [done|]. split; [done|]. by intros [?|?].
    + eexists. split; [done|]. split; [|done].
      intros (i' & s' & v' & [= <-] & _ & Hv'). congruence.
  - eexists. split; [done|]. split; [|done]. by intros (? & ? & ? & _ & ? & _).
  - eexists. split; [done|]. split; [|done]. by intros (? & ? & ? & ? & _).
  - eexists. split; [done|]. split; [|done]. by intros (? & ? & ? & ? & _).
Qed.

(** C9 as stated fails: after [onEdit] and [onGoBack] the captured state is
    still set, and [onDiscardChanges] returns with it still set. *)
Lemma onDiscardChanges_after_onGoBack_keeps_snapshot :
  let σ := Sample.editor [Sample.foo; Sample.bar] in
  ∃ σ1 σ2 σ3,
    onEdit "foo" σ = Normal σ1
    ∧ onGoBack σ1 = Normal σ2
    ∧ onDiscardChanges σ2 = Normal σ3
    ∧ originalVariableState σ3 = Some (state Sample.foo)
    ∧ originalVariableState σ3 ≠ None.
Proof.
  eexists _, _, _. split; [compute_done|]. split; [reflexivity|].
  split; [reflexivity|]. split; [reflexivity|]. discriminate.
Qed.

(** ** Collection operations and the edit session *)

(** C10.  [onDelete], [onDuplicated] and [onOrderChanged] return normally
    for every name, every pair of indices and every state, and the edit
    session after each of them ([editIndex] and the captured state) is the
    edit session before it. *)
Theorem collection_operations_keep_the_session `{VariableKinds}
    (σ : EditorState) (n : string) (fromIndex toIndex : Z) :
  ∃ σ1 σ2 σ3,
    onDelete n σ = Normal σ1
    ∧ onDuplicated n σ = Normal σ2
    ∧ onOrderChanged fromIndex toIndex σ = Normal σ3
    ∧ session σ1 = session σ
    ∧ session σ2 = session σ
    ∧ session σ3 = session σ.
Proof.
  assert (∃ σ1, onDelete n σ = Normal σ1 ∧ session σ1 = session σ)
    as (σ1 & Hdel & Hs1).
  { destruct (decide (n ∈ names (variables σ))) as [Hin|Hout].
    - apply onDelete_present in Hin as (l1 & v & l2 & _ & _ & _ & ->). by eexists.
    - rewrite onDelete_absent by done. by eexists. }
  assert (∃ σ2, onDuplicated n σ = Normal σ2 ∧ session σ2 = session σ)
    as (σ2 & Hdup & Hs2).
  { destruct (decide (n ∈ names (variables σ))) as [Hin|Hout].
    - apply onDuplicated_present in Hin
        as (l1 & v & l2 & k & _ & _ & _ & _ & _ & ->). by eexists.
    - rewrite onDuplicated_absent by done. by eexists. }
  assert (∃ σ3, onOrderChanged fromIndex toIndex σ = Normal σ3
                ∧ session σ3 = session σ) as (σ3 & Hord & Hs3).
  { destruct (decide (0 ≤ fromIndex < len (variables σ)
                      ∧ 0 ≤ toIndex < len (variables σ))) as [[Hi Hj]|Hout].
    - rewrite onOrderChanged_in_range by done. by eexists.
    - rewrite onOrderChanged_out_of_range by done. by eexists. }
  by exists σ1, σ2, σ3.
Qed.

(** The stored [editIndex] is not shifted: a session on [bar] at index 1
    still has [editIndex] 1 after [foo] at index 0 is deleted. *)
Example onDelete_does_not_shift_editIndex :
  onDelete "foo" (Sample.editing 1 Sample.bar [Sample.foo; Sample.bar; Sample.baz])
  = Normal (Sample.editing 1 Sample.bar [Sample.bar; Sample.baz]).
Proof. compute_done. Qed.

(** * Further properties of the handlers *)

(** ** The first occurrence of a name *)

Section first_occurrence.
Context `{VariableKinds}.
Implicit Types (σ : EditorState) (vs l : list SceneVariable) (n : string).

(** The converse of [getVariableIndex_present]: a variable named [n] with no
    variable named [n] before it is the one [getVariableIndex] finds. *)
Lemma getVariableIndex_first n σ l1 v l2 :
  variables σ = l1 ++ v :: l2 → name (state v) = n → n ∉ names l1 →
  getVariableIndex n σ = len l1.
Proof.
  intros Hvs Hv Hfirst. unfold getVariableIndex, getVariables, findIndex.
  assert (list_find (λ variable, name (state variable) = n) (variables σ)
          = Some (length l1, v)) as ->; [|done].
  apply list_find_Some. rewrite Hvs. split_and!.
  - by apply list_lookup_middle.
  - done.
  - intros j y Hy Hj. rewrite lookup_app_l in Hy by done.
    apply absent_Forall in Hfirst. by eapply Forall_lookup_1 in Hfirst.
Qed.

Lemma onDelete_first n σ l1 v l2 :
  variables σ = l1 ++ v :: l2 → name (state v) = n → n ∉ names l1 →
  onDelete n σ = Normal (setState_variables (l1 ++ l2) σ).
Proof.
  intros Hvs Hv Hfirst. unfold onDelete.
  rewrite (getVariableIndex_first n σ l1 v l2), len_ne_minus_one by done.
  by rewrite Hvs, slice_before, slice_after.
Qed.

Lemma names_cons v vs : names (v :: vs) = name (state v) :: names vs.
Proof. done. Qed.
End first_occurrence.

(** ** Where a reordered variable ends up *)

Section moved.
Context {A : Type}.
Implicit Types (l : list A) (i j : nat).

Lemma length_delete_lt l i : (i < length l)%nat → length (delete i l) = pred (length l).
Proof.
  intros Hi. rewrite length_delete by by apply lookup_lt_is_Some_2. lia.
Qed.

Lemma extract_and_reinsert_lookup l i j x :
  l !! i = Some x → (j < length l)%nat →
  extract_and_reinsert i j l !! j = Some x
  ∧ delete j (extract_and_reinsert i j l) = delete i l.
Proof.
  intros Hx Hj. unfold extract_and_reinsert. rewrite Hx. simpl.
  assert (length (take j (delete i l)) = j) as Hlen.
  { rewrite length_take, length_delete_lt by by eapply lookup_lt_Some.
    lia. }
  split.
  - rewrite <- Hlen at 3. by apply list_lookup_middle.
  - rewrite <- Hlen at 1. by rewrite delete_middle, take_drop.
Qed.

Lemma extract_and_reinsert_back l i j :
  (i < length l)%nat → (j < length l)%nat →
  extract_and_reinsert j i (extract_and_reinsert i j l) = l.
Proof.
  intros Hi Hj. destruct (lookup_lt_is_Some_2 l i Hi) as [x Hx].
  destruct (extract_and_reinsert_lookup l i j x Hx Hj) as [Hat Hrest].
  unfold extract_and_reinsert at 1. rewrite Hat, Hrest.
  pose proof (extract_and_reinsert_same i l) as Hsame.
  unfold extract_and_reinsert in Hsame. by rewrite Hx in Hsame.
Qed.

Lemma length_extract_and_reinsert l i j :
  length (extract_and_reinsert i j l) = length l.
Proof. apply Permutation_length, extract_and_reinsert_Permutation. Qed.
End moved.

(** X1.  With both indices in range, [onOrderChanged] puts the variable that
    was at [fromIndex] at [toIndex], and the other variables keep their
    order: without the moved variable the new and the old collection are the
    same list. *)
Theorem onOrderChanged_moves_one_variable `{VariableKinds}
    (σ : EditorState) (fromIndex toIndex : Z) :
  0 ≤ fromIndex < len (variables σ) →
  0 ≤ toIndex < len (variables σ) →
  ∃ σ',
    onOrderChanged fromIndex toIndex σ = Normal σ'
    ∧ variables σ' !! Z.to_nat toIndex = variables σ !! Z.to_nat fromIndex
    ∧ delete (Z.to_nat toIndex) (variables σ')
      = delete (Z.to_nat fromIndex) (variables σ).
Proof.
  intros Hfrom Hto. eexists. split; [by apply onOrderChanged_in_range|].
  simpl. unfold len in *.
  destruct (lookup_lt_is_Some_2 (variables σ) (Z.to_nat fromIndex)) as [x Hx];
    [lia|].
  rewrite Hx. apply extract_and_reinsert_lookup; [done|lia].
Qed.

Lemma onOrderChanged_moves_one_variable_witness :
  let σ := Sample.editor [Sample.foo; Sample.bar; Sample.baz] in
  0 ≤ 2 < len (variables σ) ∧ 0 ≤ 0 < len (variables σ)
  ∧ ∃ σ',
      onOrderChanged 2 0 σ = Normal σ'
      ∧ variables σ' !! Z.to_nat 0 = variables σ !! Z.to_nat 2
      ∧ delete (Z.to_nat 0) (variables σ') = delete (Z.to_nat 2) (variables σ).
Proof.
  assert (0 ≤ 2 < len [Sample.foo; Sample.bar; Sample.baz]) as Hfrom
    by (unfold len; simpl; lia).
  assert (0 ≤ 0 < len [Sample.foo; Sample.bar; Sample.baz]) as Hto
    by (unfold len; simpl; lia).
  split; [exact Hfrom|]. split; [exact Hto|].
  exact (@onOrderChanged_moves_one_variable Sample.kinds
           (Sample.editor [Sample.foo; Sample.bar; Sample.baz]) 2 0 Hfrom Hto).
Defined.

(** X2.  Moving a variable from [fromIndex] to [toIndex] and then from
    [toIndex] back to [fromIndex] gives the collection it started from. *)
Theorem onOrderChanged_there_and_back `{VariableKinds}
    (σ : EditorState) (fromIndex toIndex : Z) :
  0 ≤ fromIndex < len (variables σ) →
  0 ≤ toIndex < len (variables σ) →
  ∃ σ',
    onOrderChanged fromIndex toIndex σ = Normal σ'
    ∧ ∃ σ'', onOrderChanged toIndex fromIndex σ' = Normal σ''
        ∧ variables σ'' = variables σ.
Proof.
  intros Hfrom Hto. eexists. split; [by apply onOrderChanged_in_range|].
  eexists. split.
  - apply onOrderChanged_in_range; simpl; unfold len in *;
      by rewrite length_extract_and_reinsert.
  - simpl. unfold len in *. apply extract_and_reinsert_back; lia.
Qed.

Lemma onOrderChanged_there_and_back_witness :
  let σ := Sample.editor [Sample.foo; Sample.bar; Sample.baz] in
  0 ≤ 0 < len (variables σ) ∧ 0 ≤ 2 < len (variables σ)
  ∧ ∃ σ',
      onOrderChanged 0 2 σ = Normal σ'
      ∧ ∃ σ'', onOrderChanged 2 0 σ' = Normal σ''
          ∧ variables σ'' = variables σ.
Proof.
  assert (0 ≤ 0 < len [Sample.foo; Sample.bar; Sample.baz]) as Hfrom
    by (unfold len; simpl; lia).
  assert (0 ≤ 2 < len [Sample.foo; Sample.bar; Sample.baz]) as Hto
    by (unfold len; simpl; lia).
  split; [exact Hfrom|]. split; [exact Hto|].
  exact (@onOrderChanged_there_and_back Sample.kinds
           (Sample.editor [Sample.foo; Sample.bar; Sample.baz]) 0 2 Hfrom Hto).
Defined.

(** X3.  Deleting the copy that [onDuplicated] has just made, by the name it
    was given, gives back the collection as it was before duplicating. *)
Theorem onDuplicated_then_onDelete_the_copy `{VariableKinds}
    (σ : EditorState) (n : string) :
  n ∈ names (variables σ) →
  ∃ σ1 l1 v c l2,
    onDuplicated n σ = Normal σ1
    ∧ variables σ = l1 ++ v :: l2
    ∧ variables σ1 = l1 ++ v :: c :: l2
    ∧ ∃ σ2, onDelete (name (state c)) σ1 = Normal σ2
        ∧ variables σ2 = variables σ.
Proof.
  intros (l1 & v & l2 & k & Hvs & Hv & Hfirst & Hfree & _ & Hdup)%onDuplicated_present.
  eexists _, l1, v, _, l2. split; [exact Hdup|]. split; [done|]. split; [done|].
  eexists. split.
  - apply (onDelete_first _ _ (l1 ++ [v]) (setState_name (copy_name n k) v) l2).
    + simpl. by rewrite <- app_assoc.
    + done.
    + simpl. rewrite Hvs, names_app, names_cons in Hfree.
      rewrite names_app. rewrite !elem_of_app, elem_of_cons in *.
      rewrite names_cons, elem_of_cons. intros [?|[?|[]%elem_of_nil]]; auto.
  - simpl. by rewrite <- app_assoc.
Qed.

Lemma onDuplicated_then_onDelete_the_copy_witness :
  let σ := Sample.editor [Sample.foo; Sample.copy_of_foo; Sample.bar] in
  "foo" ∈ names (variables σ)
  ∧ ∃ σ1 l1 v c l2,
      onDuplicated "foo" σ = Normal σ1
      ∧ variables σ = l1 ++ v :: l2
      ∧ variables σ1 = l1 ++ v :: c :: l2
      ∧ ∃ σ2, onDelete (name (state c)) σ1 = Normal σ2
          ∧ variables σ2 = variables σ.
Proof.
  assert ("foo" ∈ names [Sample.foo; Sample.copy_of_foo; Sample.bar]) as Hin
    by compute_done.
  split; [exact Hin|].
  exact (@onDuplicated_then_onDelete_the_copy Sample.kinds
           (Sample.editor [Sample.foo; Sample.copy_of_foo; Sample.bar])
           "foo" Hin).
Defined.

(** ** What a session operation computes *)

Section session_facts.
Context `{VariableKinds}.
Implicit Types (σ : EditorState) (vs l : list SceneVariable) (n : string)
  (i : Z) (t : VariableType).

Lemma onTypeChange_open σ t i (v : SceneVariable) :
  editIndex σ = Some i → at_index (variables σ) i = Some v →
  onTypeChange t σ =
    Normal (if isAdHocKind t then σ
            else setState_variables (<[Z.to_nat i := retyped t v]> (variables σ)) σ).
Proof.
  intros Hedit Hv. unfold onTypeChange. rewrite Hedit.
  change (default (-1) (Some i)) with i. rewrite Hv.
  unfold getVariableScene. destruct (isAdHocKind t).
  - unfold replaceEditVariable. rewrite Hedit.
    change (default (-1) (Some i)) with i. by rewrite Hv.
  - by apply replaceEditVariable_variable with v.
Qed.

Lemma onTypeChange_closed σ t :
  (∀ i, editIndex σ = Some i → at_index (variables σ) i = None) →
  onTypeChange t σ = Normal (console_error "Variable not found" σ).
Proof.
  intros Hclosed. unfold onTypeChange.
  destruct (editIndex σ) as [i|] eqn:Hedit.
  - change (default (-1) (Some i)) with i. by rewrite Hclosed.
  - done.
Qed.

Lemma onDiscardChanges_open σ i (s : SceneVariableState) (w : SceneVariable) :
  editIndex σ = Some i → originalVariableState σ = Some s →
  at_index (variables σ) i = Some w →
  onDiscardChanges σ =
    Normal (setState_session None None
              (if isEditableVariableType (type s) && negb (isAdHocKind (type s))
               then setState_variables
                      (<[Z.to_nat i := {| state := s |}]> (variables σ)) σ
               else σ)).
Proof.
  intros Hedit Hsnap Hw. unfold onDiscardChanges. rewrite Hedit, Hsnap, Hw.
  destruct (isEditableVariableType (type s)); [|done].
  destruct (isAdHocKind (type s)) eqn:Hadhoc.
  - unfold getVariableScene. by rewrite Hadhoc.
  - rewrite getVariableScene_whole_state by done.
    by rewrite (slices_replace _ _ w).
Qed.

Lemma insert_middle l1 (v w : SceneVariable) l2 :
  <[Z.to_nat (len l1) := w]> (l1 ++ v :: l2) = l1 ++ w :: l2.
Proof.
  unfold len. rewrite Nat2Z.id.
  rewrite <- (Nat.add_0_r (length l1)). by rewrite insert_app_r.
Qed.

Lemma names_insert_same_name vs (k : nat) (v w : SceneVariable) :
  vs !! k = Some v → name (state w) = name (state v) →
  names (<[k := w]> vs) = names vs.
Proof.
  intros Hv Hname. unfold names. rewrite list_fmap_insert.
  apply list_insert_id. by rewrite list_lookup_fmap, Hv, Hname.
Qed.

(** Whatever the state, [onTypeChange] returns normally and leaves the
    names of the collection, in their order, as they were. *)
Lemma onTypeChange_names σ t :
  ∃ σ', onTypeChange t σ = Normal σ'
    ∧ names (variables σ') = names (variables σ).
Proof.
  destruct (editIndex σ) as [i|] eqn:Hedit.
  - destruct (at_index (variables σ) i) as [v|] eqn:Hv.
    + rewrite (onTypeChange_open σ t i v) by done. eexists. split; [done|].
      destruct (isAdHocKind t); [done|]. simpl.
      apply at_index_Some in Hv as [_ Hv].
      by apply names_insert_same_name with v.
    + rewrite onTypeChange_closed; [by eexists|]. intros j Hj. congruence.
  - rewrite onTypeChange_closed; [by eexists|]. intros j Hj. congruence.
Qed.
End session_facts.

(** X4.  Each of [onDelete], [onDuplicated], [onOrderChanged] and
    [onTypeChange] keeps the names of the collection pairwise different:
    called on a collection without two variables of one name, it returns
    normally with such a collection, whatever its arguments. *)
Theorem handlers_keep_names_unique `{VariableKinds}
    (σ : EditorState) (n : string) (fromIndex toIndex : Z) (t : VariableType) :
  NoDup (names (variables σ)) →
  (∃ σ', onDelete n σ = Normal σ' ∧ NoDup (names (variables σ')))
  ∧ (∃ σ', onDuplicated n σ = Normal σ' ∧ NoDup (names (variables σ')))
  ∧ (∃ σ', onOrderChanged fromIndex toIndex σ = Normal σ'
           ∧ NoDup (names (variables σ')))
  ∧ (∃ σ', onTypeChange t σ = Normal σ' ∧ NoDup (names (variables σ'))).
Proof.
  intros Hinv. split_and!.
  - destruct (decide (n ∈ names (variables σ))) as [Hin|Hout].
    + apply onDelete_present in Hin as (l1 & v & l2 & Hvs & _ & _ & ->).
      eexists. split; [done|]. simpl.
      rewrite Hvs, names_app, names_cons in Hinv. rewrite names_app.
      rewrite <- Permutation_middle in Hinv. by apply NoDup_cons in Hinv as [_ ?].
    + rewrite onDelete_absent by done. by eexists.
  - destruct (decide (n ∈ names (variables σ))) as [Hin|Hout].
    + apply onDuplicated_present in Hin
        as (l1 & v & l2 & k & Hvs & _ & _ & Hfree & _ & ->).
      eexists. split; [done|]. simpl.
      rewrite Hvs in Hinv, Hfree.
      rewrite (cons_middle v l1), app_assoc, names_app, names_cons.
      rewrite <- Permutation_middle. apply NoDup_cons. split.
      * rewrite <- names_app, <- app_assoc. done.
      * rewrite <- names_app, <- app_assoc. done.
    + rewrite onDuplicated_absent by done. by eexists.
  - destruct (decide (0 ≤ fromIndex < len (variables σ)
                      ∧ 0 ≤ toIndex < len (variables σ))) as [[Hi Hj]|Hout].
    + rewrite onOrderChanged_in_range by done. eexists. split; [done|]. simpl.
      unfold names. by rewrite extract_and_reinsert_Permutation.
    + rewrite onOrderChanged_out_of_range by done. by eexists.
  - destruct (onTypeChange_names σ t) as (σ' & -> & Hnames).
    eexists. split; [done|]. by rewrite Hnames.
Qed.

Lemma handlers_keep_names_unique_witness :
  let σ := Sample.editing 1 Sample.bar [Sample.foo; Sample.bar; Sample.baz] in
  NoDup (names (variables σ))
  ∧ (∃ σ', onDelete "foo" σ = Normal σ' ∧ NoDup (names (variables σ')))
  ∧ (∃ σ', onDuplicated "foo" σ = Normal σ' ∧ NoDup (names (variables σ')))
  ∧ (∃ σ', onOrderChanged 0 2 σ = Normal σ' ∧ NoDup (names (variables σ')))
  ∧ (∃ σ', onTypeChange (Sample.textbox : @VariableType Sample.kinds) σ
             = Normal σ'
           ∧ NoDup (names (variables σ'))).
Proof.
  assert (NoDup (names [Sample.foo; Sample.bar; Sample.baz])) as Hinv
    by compute_done.
  split; [exact Hinv|].
  exact (@handlers_keep_names_unique Sample.kinds
           (Sample.editing 1 Sample.bar [Sample.foo; Sample.bar; Sample.baz])
           "foo" 0 2 Sample.textbox Hinv).
Defined.

(** ** A type change inside an edit session *)

Section type_change_in_session.
Context `{VariableKinds}.
Implicit Types (σ : EditorState) (l : list SceneVariable) (n : string)
  (t : VariableType).

(** The state after [onEdit n] and [onTypeChange t], for [n] found as [v]
    between [l1] and [l2]. *)
Lemma onEdit_then_onTypeChange σ n t :
  n ∈ names (variables σ) →
  ∃ l1 v l2 σ1 σ2,
    variables σ = l1 ++ v :: l2 ∧ name (state v) = n ∧ (n ∉ names l1)
    ∧ onEdit n σ = Normal σ1
    ∧ onTypeChange t σ1 = Normal σ2
    ∧ editIndex σ2 = Some (len l1)
    ∧ originalVariableState σ2 = Some (state v)
    ∧ console σ2 = console σ
    ∧ variables σ2 = l1 ++ (if isAdHocKind t then v else retyped t v) :: l2.
Proof.
  intros (l1 & v & l2 & Hvs & Hname & Hfirst & Hedit)%onEdit_present.
  eexists l1, v, l2, _, _. split_and!; [done..|exact Hedit| | | | |].
  - apply (onTypeChange_open _ t (len l1) v); [done|]. simpl.
    rewrite Hvs. apply at_index_middle.
  - by destruct (isAdHocKind t).
  - by destruct (isAdHocKind t).
  - by destruct (isAdHocKind t).
  - destruct (isAdHocKind t); simpl; [done|]. by rewrite Hvs, insert_middle.
Qed.
End type_change_in_session.

(** X5.  A type change made in an edit session is undone by
    [onDiscardChanges] when the edited variable was of an editable kind that
    is not built as an ad-hoc filter set: after [onEdit n], [onTypeChange t]
    and [onDiscardChanges] the collection is the one before [onEdit], and
    the session is closed. *)
Theorem onDiscardChanges_undoes_onTypeChange `{VariableKinds}
    (σ : EditorState) (n : string) (t : VariableType) :
  n ∈ names (variables σ) →
  (∀ v, v ∈ variables σ → name (state v) = n →
        isEditableVariableType (type (state v)) = true
        ∧ isAdHocKind (type (state v)) = false) →
  ∃ σ1, onEdit n σ = Normal σ1
    ∧ ∃ σ2, onTypeChange t σ1 = Normal σ2
      ∧ ∃ σ3, onDiscardChanges σ2 = Normal σ3
        ∧ variables σ3 = variables σ
        ∧ session σ3 = (None, None).
Proof.
  intros (l1 & v & l2 & σ1 & σ2 & Hvs & Hname & _ & Hedit & Htype & Hidx & Hsnap
          & _ & Hvs2)%(onEdit_then_onTypeChange σ n t) Hkind.
  destruct (Hkind v) as [Heditable Hadhoc]; [|done|].
  { rewrite Hvs, elem_of_app, elem_of_cons. auto. }
  exists σ1. split; [done|]. exists σ2. split; [done|].
  eexists. split.
  - eapply (onDiscardChanges_open σ2); [done..|].
    rewrite Hvs2. apply at_index_middle.
  - rewrite Heditable, Hadhoc. simpl. split; [|done].
    rewrite Hvs2, insert_middle, Hvs. by destruct v.
Qed.

Lemma onDiscardChanges_undoes_onTypeChange_witness :
  let σ := Sample.editor [Sample.foo; Sample.x; Sample.bar] in
  "x" ∈ names (variables σ)
  ∧ (∀ v, v ∈ variables σ → name (state v) = "x" →
          isEditableVariableType (type (state v)) = true
          ∧ isAdHocKind (type (state v)) = false)
  ∧ ∃ σ1, onEdit "x" σ = Normal σ1
      ∧ ∃ σ2, onTypeChange (Sample.textbox : @VariableType Sample.kinds) σ1
                = Normal σ2
        ∧ ∃ σ3, onDiscardChanges σ2 = Normal σ3
          ∧ variables σ3 = variables σ
          ∧ session σ3 = (None, None).
Proof.
  assert ("x" ∈ names [Sample.foo; Sample.x; Sample.bar]) as Hin by compute_done.
  assert (∀ v : @SceneVariable Sample.kinds,
            v ∈ [Sample.foo; Sample.x; Sample.bar] → name (state v) = "x" →
            isEditableVariableType (type (state v)) = true
            ∧ isAdHocKind (type (state v)) = false) as Hkind.
  { intros v Hv _. repeat (apply elem_of_cons in Hv as [->|Hv]; [by split|]).
    by apply elem_of_nil in Hv. }
  split; [exact Hin|]. split; [exact Hkind|].
  exact (@onDiscardChanges_undoes_onTypeChange Sample.kinds
           (Sample.editor [Sample.foo; Sample.x; Sample.bar]) "x"
           Sample.textbox Hin Hkind).
Defined.

(** X6.  When the edited variable was of a kind that is not editable, or of
    a kind built as an ad-hoc filter set, [onDiscardChanges] does not undo a
    type change: it closes the session and leaves the retyped variable in
    the collection. *)
Theorem onDiscardChanges_keeps_onTypeChange `{VariableKinds}
    (σ : EditorState) (n : string) (t : VariableType) :
  n ∈ names (variables σ) →
  (∀ v, v ∈ variables σ → name (state v) = n →
        isEditableVariableType (type (state v)) = false
        ∨ isAdHocKind (type (state v)) = true) →
  isAdHocKind t = false →
  ∃ l1 v l2 σ1 σ2 σ3,
    variables σ = l1 ++ v :: l2 ∧ name (state v) = n ∧ (n ∉ names l1)
    ∧ onEdit n σ = Normal σ1
    ∧ onTypeChange t σ1 = Normal σ2
    ∧ onDiscardChanges σ2 = Normal σ3
    ∧ variables σ3 = l1 ++ retyped t v :: l2
    ∧ session σ3 = (None, None).
Proof.
  intros (l1 & v & l2 & σ1 & σ2 & Hvs & Hname & Hfirst & Hedit & Htype & Hidx
          & Hsnap & _ & Hvs2)%(onEdit_then_onTypeChange σ n t) Hkind Ht.
  rewrite Ht in Hvs2.
  assert (isEditableVariableType (type (state v))
          && negb (isAdHocKind (type (state v))) = false) as Hno.
  { assert (v ∈ variables σ) as Hin
      by (rewrite Hvs, elem_of_app, elem_of_cons; auto).
    destruct (Hkind v Hin Hname) as [->| ->]; [done|apply andb_false_r]. }
  eexists l1, v, l2, σ1, σ2, _. split_and!; [done..| | |].
  - eapply (onDiscardChanges_open σ2); [done..|].
    rewrite Hvs2. apply at_index_middle.
  - rewrite Hno. simpl. by rewrite Hvs2.
  - by rewrite Hno.
Qed.

Lemma onDiscardChanges_keeps_onTypeChange_witness :
  let σ := Sample.editor [Sample.foo; Sample.var "filters" Sample.adhoc []] in
  "filters" ∈ names (variables σ)
  ∧ (∀ v, v ∈ variables σ → name (state v) = "filters" →
          isEditableVariableType (type (state v)) = false
          ∨ isAdHocKind (type (state v)) = true)
  ∧ @isAdHocKind Sample.kinds Sample.custom = false
  ∧ ∃ l1 v l2 σ1 σ2 σ3,
      variables σ = l1 ++ v :: l2 ∧ name (state v) = "filters"
      ∧ ("filters" ∉ names l1)
      ∧ onEdit "filters" σ = Normal σ1
      ∧ onTypeChange (Sample.custom : @VariableType Sample.kinds) σ1 = Normal σ2
      ∧ onDiscardChanges σ2 = Normal σ3
      ∧ variables σ3 = l1 ++ retyped (Sample.custom : @VariableType Sample.kinds) v :: l2
      ∧ session σ3 = (None, None).
Proof.
  assert ("filters" ∈ names [Sample.foo; Sample.var "filters" Sample.adhoc []])
    as Hin by compute_done.
  assert (∀ v : @SceneVariable Sample.kinds,
            v ∈ [Sample.foo; Sample.var "filters" Sample.adhoc []] →
            name (state v) = "filters" →
            isEditableVariableType (type (state v)) = false
            ∨ isAdHocKind (type (state v)) = true) as Hkind.
  { intros v Hv Hname. apply elem_of_cons in Hv as [->|Hv]; [discriminate Hname|].
    apply elem_of_cons in Hv as [->|Hv]; [by right|].
    by apply elem_of_nil in Hv. }
  split; [exact Hin|]. split; [exact Hkind|]. split; [reflexivity|].
  exact (@onDiscardChanges_keeps_onTypeChange Sample.kinds
           (Sample.editor [Sample.foo; Sample.var "filters" Sample.adhoc []])
           "filters" Sample.custom Hin Hkind eq_refl).
Defined.

Lemma at_index_out_of_range {A} (arr : list A) (i : Z) :
  i < 0 ∨ len arr ≤ i → at_index arr i = None.
Proof.
  intros Hi. unfold at_index, len in *. destruct (Z.ltb_spec i 0); [done|].
  apply lookup_ge_None. lia.
Qed.

(** X7.  Without a session on a variable of the collection ([editIndex]
    unset, negative, or not below the length), [onTypeChange] and
    [replaceEditVariable] write "Variable not found" with [console.error],
    return normally and change nothing else. *)
Theorem onTypeChange_without_session `{VariableKinds}
    (σ : EditorState) (t : VariableType) (newVariable : SceneObject) :
  (∀ i, editIndex σ = Some i → i < 0 ∨ len (variables σ) ≤ i) →
  onTypeChange t σ = Normal (console_error "Variable not found" σ)
  ∧ replaceEditVariable newVariable σ
    = Normal (console_error "Variable not found" σ).
Proof.
  intros Hclosed.
  assert (at_index (variables σ) (default (-1) (editIndex σ)) = None) as Hnone.
  { destruct (editIndex σ) as [i|] eqn:Hedit; [|done].
    apply at_index_out_of_range. by apply Hclosed. }
  unfold onTypeChange, replaceEditVariable. by rewrite Hnone.
Qed.

Lemma onTypeChange_without_session_witness :
  let σ := Sample.editing 2 Sample.bar [Sample.foo; Sample.bar] in
  (∀ i, editIndex σ = Some i → i < 0 ∨ len (variables σ) ≤ i)
  ∧ onTypeChange (Sample.textbox : @VariableType Sample.kinds) σ
    = Normal (console_error "Variable not found" σ)
  ∧ replaceEditVariable (IsVariable Sample.baz) σ
    = Normal (console_error "Variable not found" σ).
Proof.
  assert (∀ i, editIndex
                 (Sample.editing 2 Sample.bar [Sample.foo; Sample.bar]) = Some i →
               i < 0 ∨ len [Sample.foo; Sample.bar] ≤ i) as Hclosed.
  { intros i [= <-]. right. unfold len. simpl. lia. }
  split; [exact Hclosed|].
  exact (@onTypeChange_without_session Sample.kinds
           (Sample.editing 2 Sample.bar [Sample.foo; Sample.bar])
           Sample.textbox (IsVariable Sample.baz) Hclosed).
Defined.

(** X8.  Of two type changes in a row only the second counts: when the
    second kind is not built as an ad-hoc filter set, [onTypeChange t1]
    followed by [onTypeChange t2] ends in the state that [onTypeChange t2]
    alone ends in. *)
Theorem onTypeChange_last_wins `{VariableKinds}
    (σ : EditorState) (t1 t2 : VariableType) (i : Z) (v : SceneVariable) :
  editIndex σ = Some i →
  at_index (variables σ) i = Some v →
  isAdHocKind t2 = false →
  ∃ σ1, onTypeChange t1 σ = Normal σ1
    ∧ onTypeChange t2 σ1 = onTypeChange t2 σ.
Proof.
  intros Hedit Hv Ht2. eexists.
  split; [exact (onTypeChange_open σ t1 i v Hedit Hv)|].
  destruct (isAdHocKind t1); [done|].
  rewrite (onTypeChange_open σ t2 i v) by done.
  rewrite (onTypeChange_open _ t2 i (retyped t1 v)); [|done|].
  - rewrite Ht2. simpl. by rewrite list_insert_insert_eq.
  - simpl. apply at_index_Some in Hv as [Hi Hv]. apply at_index_Some.
    split; [done|]. apply list_lookup_insert_eq. by eapply lookup_lt_Some.
Qed.

Lemma onTypeChange_last_wins_witness :
  let σ := Sample.editing 1 Sample.x [Sample.foo; Sample.x; Sample.bar] in
  editIndex σ = Some 1
  ∧ at_index (variables σ) 1 = Some Sample.x
  ∧ @isAdHocKind Sample.kinds Sample.textbox = false
  ∧ ∃ σ1, onTypeChange (Sample.custom : @VariableType Sample.kinds) σ = Normal σ1
      ∧ onTypeChange (Sample.textbox : @VariableType Sample.kinds) σ1
        = onTypeChange (Sample.textbox : @VariableType Sample.kinds) σ.
Proof.
  split; [reflexivity|]. split; [reflexivity|]. split; [reflexivity|].
  exact (@onTypeChange_last_wins Sample.kinds
           (Sample.editing 1 Sample.x [Sample.foo; Sample.x; Sample.bar])
           Sample.custom Sample.textbox 1 Sample.x eq_refl eq_refl eq_refl).
Defined.

(** X9.  A new [onEdit] replaces the session that is open without a trace:
    [onEdit n2] after [onEdit n1] ends in the state that [onEdit n2] alone
    ends in, with the captured state of the first session gone. *)
Theorem onEdit_replaces_the_open_session `{VariableKinds}
    (σ : EditorState) (n1 n2 : string) :
  n1 ∈ names (variables σ) →
  n2 ∈ names (variables σ) →
  ∃ σ1, onEdit n1 σ = Normal σ1 ∧ onEdit n2 σ1 = onEdit n2 σ.
Proof.
  intros (l1 & v & l2 & _ & _ & _ & ->)%onEdit_present Hin2.
  eexists. split; [done|].
  destruct (onEdit_present σ n2 Hin2) as (k1 & w & k2 & Hvs & Hw & Hfirst & ->).
  unfold onEdit, getVariables.
  rewrite (getVariableIndex_first n2 _ k1 w k2) by done.
  by rewrite len_ne_minus_one; cbn [variables setState_session];
    rewrite Hvs, at_index_middle.
Qed.

Lemma onEdit_replaces_the_open_session_witness :
  let σ := Sample.editor [Sample.foo; Sample.bar] in
  "foo" ∈ names (variables σ) ∧ "bar" ∈ names (variables σ)
  ∧ ∃ σ1, onEdit "foo" σ = Normal σ1 ∧ onEdit "bar" σ1 = onEdit "bar" σ.
Proof.
  assert ("foo" ∈ names [Sample.foo; Sample.bar]) as Hin1 by compute_done.
  assert ("bar" ∈ names [Sample.foo; Sample.bar]) as Hin2 by compute_done.
  split; [exact Hin1|]. split; [exact Hin2|].
  exact (@onEdit_replaces_the_open_session Sample.kinds
           (Sample.editor [Sample.foo; Sample.bar]) "foo" "bar" Hin1 Hin2).
Defined.

(** ** The page that is shown *)

(** X10.  After [onEdit n] for a name of the collection the settings page
    shows the settings view of the first variable named [n]; after
    [onGoBack], and as well after [onDiscardChanges], it shows the list
    again, with the collection as it was before [onEdit] (whatever the kind
    of the variable). *)
Theorem settings_page_follows_the_session `{VariableKinds}
    (σ : EditorState) (n : string) :
  n ∈ names (variables σ) →
  ∃ l1 v l2 σ1 σ2 σ3,
    variables σ = l1 ++ v :: l2 ∧ name (state v) = n ∧ (n ∉ names l1)
    ∧ onEdit n σ = Normal σ1
    ∧ VariableEditorSettingsListView σ1 = VariableEditorSettingsView v
    ∧ onGoBack σ1 = Normal σ2
    ∧ VariableEditorSettingsListView σ2 = VariableEditorList (variables σ)
    ∧ onDiscardChanges σ1 = Normal σ3
    ∧ VariableEditorSettingsListView σ3 = VariableEditorList (variables σ).
Proof.
  intros (l1 & v & l2 & Hvs & Hname & Hfirst & Hedit)%onEdit_present.
  eexists l1, v, l2, _, _, _.
  split_and!; [done..|exact Hedit| |done|done| |].
  - unfold VariableEditorSettingsListView. simpl.
    by rewrite Hvs, at_index_middle.
  - eapply onDiscardChanges_open; [done..|]. simpl.
    rewrite Hvs. apply at_index_middle.
  - unfold VariableEditorSettingsListView.
    destruct (_ && _); simpl; [|done].
    rewrite Hvs, insert_middle. by destruct v.
Qed.

Lemma settings_page_follows_the_session_witness :
  let σ := Sample.editor [Sample.foo; Sample.bar] in
  "bar" ∈ names (variables σ)
  ∧ ∃ l1 v l2 σ1 σ2 σ3,
      variables σ = l1 ++ v :: l2 ∧ name (state v) = "bar" ∧ ("bar" ∉ names l1)
      ∧ onEdit "bar" σ = Normal σ1
      ∧ VariableEditorSettingsListView σ1 = VariableEditorSettingsView v
      ∧ onGoBack σ1 = Normal σ2
      ∧ VariableEditorSettingsListView σ2 = VariableEditorList (variables σ)
      ∧ onDiscardChanges σ1 = Normal σ3
      ∧ VariableEditorSettingsListView σ3 = VariableEditorList (variables σ).
Proof.
  assert ("bar" ∈ names [Sample.foo; Sample.bar]) as Hin by compute_done.
  split; [exact Hin|].
  exact (@settings_page_follows_the_session Sample.kinds
           (Sample.editor [Sample.foo; Sample.bar]) "bar" Hin).
Defined.

(** X11.  [onGoBack] keeps a type change: after [onEdit n], [onTypeChange t]
    (for a kind not built as an ad-hoc filter set) and [onGoBack], the
    retyped variable is in the collection and no session is open, so that
    an [onDiscardChanges] after it returns at once and restores nothing. *)
Theorem onGoBack_keeps_onTypeChange `{VariableKinds}
    (σ : EditorState) (n : string) (t : VariableType) :
  n ∈ names (variables σ) →
  isAdHocKind t = false →
  ∃ l1 v l2 σ1 σ2 σ3,
    variables σ = l1 ++ v :: l2 ∧ name (state v) = n ∧ (n ∉ names l1)
    ∧ onEdit n σ = Normal σ1
    ∧ onTypeChange t σ1 = Normal σ2
    ∧ onGoBack σ2 = Normal σ3
    ∧ variables σ3 = l1 ++ retyped t v :: l2
    ∧ editIndex σ3 = None
    ∧ onDiscardChanges σ3 = Normal σ3.
Proof.
  intros (l1 & v & l2 & σ1 & σ2 & Hvs & Hname & Hfirst & Hedit & Htype & Hidx
          & Hsnap & _ & Hvs2)%(onEdit_then_onTypeChange σ n t) Ht.
  rewrite Ht in Hvs2.
  eexists l1, v, l2, σ1, σ2, _. by split_and!.
Qed.

Lemma onGoBack_keeps_onTypeChange_witness :
  let σ := Sample.editor [Sample.foo; Sample.x] in
  "x" ∈ names (variables σ)
  ∧ @isAdHocKind Sample.kinds Sample.textbox = false
  ∧ ∃ l1 v l2 σ1 σ2 σ3,
      variables σ = l1 ++ v :: l2 ∧ name (state v) = "x" ∧ ("x" ∉ names l1)
      ∧ onEdit "x" σ = Normal σ1
      ∧ onTypeChange (Sample.textbox : @VariableType Sample.kinds) σ1 = Normal σ2
      ∧ onGoBack σ2 = Normal σ3
      ∧ variables σ3
        = l1 ++ retyped (Sample.textbox : @VariableType Sample.kinds) v :: l2
      ∧ editIndex σ3 = None
      ∧ onDiscardChanges σ3 = Normal σ3.
Proof.
  assert ("x" ∈ names [Sample.foo; Sample.x]) as Hin by compute_done.
  split; [exact Hin|]. split; [reflexivity|].
  exact (@onGoBack_keeps_onTypeChange Sample.kinds
           (Sample.editor [Sample.foo; Sample.x]) "x" Sample.textbox Hin eq_refl).
Defined.

(** X12.  The session handlers never throw and never add or remove a
    variable: in every state [onEdit] and [onGoBack] return normally with
    the collection untouched, and [onTypeChange] and [onDiscardChanges]
    return normally with a collection of the same length. *)
Theorem session_handlers_keep_the_length `{VariableKinds}
    (σ : EditorState) (n : string) (t : VariableType) :
  (∃ σ', onEdit n σ = Normal σ' ∧ variables σ' = variables σ)
  ∧ (∃ σ', onGoBack σ = Normal σ' ∧ variables σ' = variables σ)
  ∧ (∃ σ', onTypeChange t σ = Normal σ'
           ∧ length (variables σ') = length (variables σ))
  ∧ (∃ σ', onDiscardChanges σ = Normal σ'
           ∧ length (variables σ') = length (variables σ)).
Proof.
  split_and!.
  - destruct (decide (n ∈ names (variables σ))) as [Hin|Hout].
    + apply onEdit_present in Hin as (l1 & v & l2 & _ & _ & _ & ->). by eexists.
    + rewrite onEdit_absent by done. by eexists.
  - by eexists.
  - destruct (onTypeChange_names σ t) as (σ' & -> & Hnames).
    eexists. split; [done|]. by rewrite <- !length_names, Hnames.
  - destruct (editIndex σ) as [i|] eqn:Hedit;
      [destruct (originalVariableState σ) as [s|] eqn:Hsnap;
       [destruct (at_index (variables σ) i) as [w|] eqn:Hw|]|].
    + rewrite (onDiscardChanges_open σ i s w) by done. eexists. split; [done|].
      destruct (_ && _); simpl; [|done]. apply length_insert.
    + unfold onDiscardChanges. rewrite Hedit, Hsnap, Hw. by eexists.
    + unfold onDiscardChanges. rewrite Hedit, Hsnap. by eexists.
    + unfold onDiscardChanges. rewrite Hedit. by eexists.
Qed.

(** * Matching by derivatives *)

Section regex_facts.
Implicit Types (r : regex) (s : string) (c : ascii).

Lemma append_empty_inv s1 s2 : s1 +:+ s2 = "" → s1 = "" ∧ s2 = "".
Proof. by destruct s1. Qed.

Lemma append_String_inv s1 s2 c s :
  s1 +:+ s2 = String c s →
  (s1 = "" ∧ s2 = String c s) ∨ (∃ s1', s1 = String c s1' ∧ s = s1' +:+ s2).
Proof.
  destruct s1 as [|c1 s1]; [by left|]. intros [= -> <-]. right. by eexists.
Qed.

Lemma lang_empty_nullable r s : lang r s → s = "" → nullable r = true.
Proof.
  induction 1 as [|class c Hc|r1 r2 s1 s2 _ IH1 _ IH2|r1 r2 s _ IH|r1 r2 s _ IH
                  |r|r s1 s2 _ _ _ _]; intros Hs; simpl; try done.
  - apply append_empty_inv in Hs as [-> ->]. by rewrite IH1, IH2.
  - by rewrite IH.
  - rewrite IH by done. apply orb_true_r.
Qed.

Lemma nullable_lang r : nullable r = true ↔ lang r "".
Proof.
  split; [|intros Hl; by apply (lang_empty_nullable r "")].
  induction r as [| |class|r1 IH1 r2 IH2|r1 IH1 r2 IH2|r IH]; simpl; try done.
  - intros _. constructor.
  - intros [H1 H2]%andb_true_iff. apply (lang_Seq r1 r2 "" ""); auto.
  - intros [H1|H2]%orb_true_iff; [apply lang_Alt_l|apply lang_Alt_r]; auto.
  - intros _. constructor.
Qed.

Lemma lang_deriv_1 r s' :
  lang r s' → ∀ c s, s' = String c s → lang (deriv c r) s.
Proof.
  induction 1 as [|class c' Hc|r1 r2 s1 s2 H1 IH1 H2 IH2|r1 r2 s0 _ IH
                  |r1 r2 s0 _ IH|r|r s1 s2 H1 IH1 H2 IH2]; intros c s Hs; simpl.
  - done.
  - injection Hs as -> <-. rewrite Hc. constructor.
  - apply append_String_inv in Hs as [[-> ->]|(s1' & -> & ->)].
    + apply lang_Alt_r. rewrite (lang_empty_nullable r1 "" H1) by done.
      by apply IH2.
    + apply lang_Alt_l. apply lang_Seq; [by apply IH1|done].
  - apply lang_Alt_l. by apply IH.
  - apply lang_Alt_r. by apply IH.
  - done.
  - apply append_String_inv in Hs as [[-> ->]|(s1' & -> & ->)].
    + by apply IH2.
    + apply lang_Seq; [by apply IH1|done].
Qed.

Lemma lang_deriv_2 r c s : lang (deriv c r) s → lang r (String c s).
Proof.
  revert s. induction r as [| |class|r1 IH1 r2 IH2|r1 IH1 r2 IH2|r IH];
    intros s Hl; simpl in Hl.
  - inversion Hl.
  - inversion Hl.
  - destruct (class c) eqn:Hc; inversion Hl; subst. by constructor.
  - inversion Hl as [| | |? ? ? Hl'|? ? ? Hl'| |]; subst.
    + inversion Hl' as [| |? ? s1 s2 H1 H2| | | |]; subst.
      apply (lang_Seq r1 r2 (String c s1) s2); [by apply IH1|done].
    + destruct (nullable r1) eqn:Hnull; [|inversion Hl'].
      apply (lang_Seq r1 r2 "" (String c s)); [by apply nullable_lang|].
      by apply IH2.
  - inversion Hl; subst; [apply lang_Alt_l; auto|apply lang_Alt_r; auto].
  - inversion Hl as [| |? ? s1 s2 H1 H2| | | |]; subst.
    apply (lang_Star_cons r (String c s1) s2); [by apply IH|done].
Qed.

(** The matcher decides the language. *)
Lemma matches_lang r s : matches r s = true ↔ lang r s.
Proof.
  revert r. induction s as [|c s IH]; intros r; simpl.
  - apply nullable_lang.
  - rewrite IH. split; [apply lang_deriv_2|].
    intros Hl. by apply (lang_deriv_1 r (String c s)).
Qed.
End regex_facts.

(** * What [isNumeric] accepts *)

Section numeric.
Implicit Types (s : string) (c : ascii).

Lemma lang_Chr_inv class s :
  lang (Chr class) s → ∃ c, s = String c "" ∧ class c = true.
Proof. inversion 1; subst. by eexists. Qed.

Lemma lang_Star_digits s : lang (Star (Chr digit)) s ↔ all_digits s = true.
Proof.
  split.
  - remember (Star (Chr digit)) as r eqn:Hr. intros Hl.
    induction Hl as [| | | | |r|r s1 s2 H1 _ H2 IH2]; try done.
    injection Hr as ->. apply lang_Chr_inv in H1 as (c & -> & Hc).
    simpl. rewrite Hc. by apply IH2.
  - induction s as [|c s IH]; simpl; [constructor|].
    intros [Hc Hs]%andb_true_iff.
    apply (lang_Star_cons _ (String c "") s); [by constructor|auto].
Qed.

Lemma lang_Plus_digits s :
  lang (Plus (Chr digit)) s ↔ s ≠ "" ∧ all_digits s = true.
Proof.
  unfold Plus. split.
  - inversion 1 as [| |? ? s1 s2 H1 H2| | | |]; subst.
    apply lang_Chr_inv in H1 as (c & -> & Hc).
    apply lang_Star_digits in H2.
    change (String c "" +:+ s2) with (String c s2). simpl. by rewrite Hc, H2.
  - destruct s as [|c s]; [by intros [[] _]|]. simpl.
    intros [_ [Hc Hs]%andb_true_iff].
    apply (lang_Seq _ _ (String c "") s); [by constructor|].
    by apply lang_Star_digits.
Qed.

Lemma isNumeric_lang s :
  isNumeric s = true ↔
  ∃ digits, digits ≠ "" ∧ all_digits digits = true
            ∧ (s = digits ∨ s = String "-" digits).
Proof.
  unfold isNumeric. rewrite matches_lang. unfold Opt. split.
  - inversion 1 as [| |? ? s1 s2 H1 H2| | | |]; subst.
    apply lang_Plus_digits in H2 as [Hne Hdigits]. exists s2.
    split; [done|]. split; [done|].
    inversion H1 as [| | |? ? ? Hminus|? ? ? Heps| |]; subst.
    + apply lang_Chr_inv in Hminus as (c & -> & Hc).
      apply bool_decide_eq_true in Hc as ->. by right.
    + inversion Heps; subst. by left.
  - intros (digits & Hne & Hdigits & [->| ->]).
    + apply (lang_Seq _ _ "" digits); [apply lang_Alt_r; constructor|].
      by apply lang_Plus_digits.
    + apply (lang_Seq _ _ (String "-" "") digits).
      * apply lang_Alt_l. constructor. by apply bool_decide_eq_true.
      * by apply lang_Plus_digits.
Qed.

Lemma digit_pretty_N_char (x : N) : digit (pretty_N_char x) = true.
Proof. unfold pretty_N_char. by repeat case_match. Qed.

Lemma pretty_N_go_digits (x : N) s :
  all_digits s = true → all_digits (pretty_N_go x s) = true.
Proof.
  revert s. induction (N.lt_wf_0 x) as [x _ IH]; intros s Hs.
  destruct (decide (x = 0)%N) as [->|Hx]; [by rewrite pretty_N_go_0|].
  rewrite pretty_N_go_step by lia. apply IH.
  - apply N.div_lt; lia.
  - simpl. by rewrite digit_pretty_N_char, Hs.
Qed.

Lemma pretty_N_go_nonempty (x : N) s : s ≠ "" → pretty_N_go x s ≠ "".
Proof.
  revert s. induction (N.lt_wf_0 x) as [x _ IH]; intros s Hs.
  destruct (decide (x = 0)%N) as [->|Hx]; [by rewrite pretty_N_go_0|].
  rewrite pretty_N_go_step by lia. apply IH; [apply N.div_lt; lia|done].
Qed.

Lemma pretty_N_decimal (x : N) :
  pretty x ≠ "" ∧ all_digits (pretty x) = true.
Proof.
  unfold pretty, pretty_N. destruct (decide (x = 0)%N); [done|].
  split; [|by apply pretty_N_go_digits].
  rewrite pretty_N_go_step by lia. by apply pretty_N_go_nonempty.
Qed.
End numeric.

(** X13.  [isNumeric] accepts exactly the strings made of one or more ASCII
    digits, with or without one minus sign in front: nothing else may stand
    before, between or after the digits. *)
Theorem isNumeric_accepts_signed_digit_strings (value : string) :
  isNumeric value = true ↔
  ∃ digits, digits ≠ "" ∧ all_digits digits = true
            ∧ (value = digits ∨ value = String "-" digits).
Proof. apply isNumeric_lang. Qed.

(** X14.  [isNumeric] accepts the decimal notation of every integer. *)
Theorem isNumeric_accepts_every_integer (z : Z) : isNumeric (pretty z) = true.
Proof.
  apply isNumeric_lang. destruct z as [|p|p].
  - exists "0". split_and!; [done|done|by left].
  - exists (pretty (N.pos p)).
    destruct (pretty_N_decimal (N.pos p)) as [? ?]. split_and!; [done|done|by left].
  - exists (pretty (N.pos p)).
    destruct (pretty_N_decimal (N.pos p)) as [? ?]. split_and!; [done|done|by right].
Qed.

Lemma has_numeric_value_spec (v : SelectableValue) :
  has_numeric_value v = true ↔ ∃ s, sv_value v = Some s ∧ isNumeric s = true.
Proof.
  unfold has_numeric_value, truthy. destruct (sv_value v) as [s|]; split.
  - intros [_ Hs]%andb_true_iff. by exists s.
  - intros (s' & [= <-] & Hs). rewrite Hs, andb_true_r.
    destruct s; [discriminate Hs|done].
  - done.
  - by intros (s' & [=] & _).
Qed.

(** X15.  Only for the provider [github] do the team ids have a validation.
    It accepts an array of selectable values exactly when every element has
    a value that [isNumeric] accepts (so the empty array passes and an
    element without value, or with the empty string, fails); it accepts a
    string exactly when [isNumeric] does, and any other value. *)
Theorem teamIds_validation_checks_every_value (provider : string) :
  match teamIds_validation provider with
  | Some validation =>
    provider = "github"
    ∧ message validation = "Team Ids must be numbers."
    ∧ (∀ values,
         validate validation (SelectableValues values) = true ↔
         Forall (λ v, ∃ s, sv_value v = Some s ∧ isNumeric s = true) values)
    ∧ (∀ s, validate validation (StringValue s) = isNumeric s)
    ∧ validate validation OtherValue = true
  | None => provider ≠ "github"
  end.
Proof.
  unfold teamIds_validation. case_bool_decide as Hprovider; [|done].
  split_and!; try done. intros values. simpl.
  rewrite forallb_forall, Forall_forall.
  split; intros Hall v Hv.
  - apply has_numeric_value_spec, Hall. by apply list_elem_of_In.
  - apply has_numeric_value_spec, Hall. by apply list_elem_of_In.
Qed.

(** * Loading the API groups *)

Section load.
Context `{APIGroupBuilders}.
Implicit Types (args : list string) (bs : list APIGroupBuilder) (g : string).

Lemma load_groups_app args1 args2 bs :
  load_groups (args1 ++ args2) bs =
    match load_groups args1 bs with
    | (bs', None) => load_groups args2 bs'
    | (bs', Some err) => (bs', Some err)
    end.
Proof.
  revert bs. induction args1 as [|g args1 IH]; intros bs; simpl; [done|].
  repeat case_bool_decide; try done.
  by destruct (InitializeDataSourceAPIServer g).
Qed.

(** The loop only appends, one builder for each group it gets past. *)
Lemma load_groups_length args bs bs' e :
  load_groups args bs = (bs', e) →
  (length bs ≤ length bs' ≤ length bs + length args)%nat
  ∧ (e = None → length bs' = (length bs + length args)%nat ∧ Forall known_group args)
  ∧ ((∃ g, g ∈ args ∧ ¬ known_group g) → e ≠ None).
Proof.
  revert bs. induction args as [|g args IH]; intros bs; simpl.
  - intros [= <- <-]. split; [lia|]. split; [by split; [lia|]|].
    by intros (g & ?%elem_of_nil & _).
  - unfold known_group at 2.
    assert (∀ b, load_groups args (bs ++ [b]) = (bs', e) → known_group g →
      (length bs ≤ length bs' ≤ length bs + S (length args))%nat
      ∧ (e = None → length bs' = (length bs + S (length args))%nat
                    ∧ Forall known_group (g :: args))
      ∧ ((∃ g', g' ∈ g :: args ∧ ¬ known_group g') → e ≠ None)) as Hstep.
    { intros b Hload Hg. apply IH in Hload as (Hlen & Hok & Hbad).
      rewrite length_app in *. simpl in *. split; [lia|]. split.
      - intros He. destruct (Hok He) as [? ?]. split; [lia|by constructor].
      - intros (g' & [->|Hg']%elem_of_cons & Hunknown); [done|].
        apply Hbad. eauto. }
    repeat case_bool_decide.
    + intros Hload. apply (Hstep _ Hload). unfold known_group. auto.
    + intros Hload. apply (Hstep _ Hload). unfold known_group. auto.
    + destruct (InitializeDataSourceAPIServer g) as [ds|err].
      * intros Hload. apply (Hstep _ Hload). unfold known_group. auto.
      * intros [= <- <-]. split; [lia|]. by split.
    + intros [= <- <-]. split; [lia|]. by split.
Qed.
End load.

(** X16.  When [loadAPIGroupBuilders] returns [nil], there was at least one
    argument, every argument is one of the three group names the switch
    knows, [o.builders] has one builder for each argument, and the scheme is
    the one left by installing the schemas of these builders in order. *)
Theorem loadAPIGroupBuilders_success `{APIGroupBuilders}
    (args : list string) (scheme : Scheme) :
  returned (loadAPIGroupBuilders args scheme) = None →
  args ≠ []
  ∧ Forall known_group args
  ∧ length (o_builders (loadAPIGroupBuilders args scheme)) = length args
  ∧ install_schemas (o_builders (loadAPIGroupBuilders args scheme)) scheme
    = (the_scheme (loadAPIGroupBuilders args scheme), None).
Proof.
  unfold loadAPIGroupBuilders.
  destruct (load_groups args []) as [bs [err|]] eqn:Hload; [done|].
  apply load_groups_length in Hload as (_ & Hok & _).
  destruct (Hok eq_refl) as [Hlen Hknown]. simpl in Hlen.
  destruct (Z.ltb_spec (len bs) 1) as [Hempty|Hsome]; [done|].
  destruct (install_schemas bs scheme) as [scheme' e] eqn:Hinstall. simpl.
  intros ->. split_and!; try done.
  intros ->. unfold len in Hsome. simpl in Hlen. lia.
Qed.

Lemma loadAPIGroupBuilders_success_witness :
  let args := ["example.grafana.app"; "testdata.datasource.grafana.app"] in
  returned (@loadAPIGroupBuilders sample_builders args []) = None
  ∧ args ≠ []
  ∧ Forall known_group args
  ∧ length (o_builders (@loadAPIGroupBuilders sample_builders args []))
    = length args
  ∧ @install_schemas sample_builders
      (o_builders (@loadAPIGroupBuilders sample_builders args [])) []
    = (the_scheme (@loadAPIGroupBuilders sample_builders args []), None).
Proof.
  split; [reflexivity|].
  exact (@loadAPIGroupBuilders_success sample_builders
           ["example.grafana.app"; "testdata.datasource.grafana.app"] []
           eq_refl).
Defined.

(** X17.  A group name the switch does not know, anywhere among the
    arguments, makes [loadAPIGroupBuilders] return an error; no schema is
    installed then (the scheme is untouched), and [o.builders] is left with
    fewer builders than there are arguments. *)
Theorem loadAPIGroupBuilders_unknown_group_fails `{APIGroupBuilders}
    (args : list string) (scheme : Scheme) (g : string) :
  g ∈ args → ¬ known_group g →
  returned (loadAPIGroupBuilders args scheme) ≠ None
  ∧ the_scheme (loadAPIGroupBuilders args scheme) = scheme
  ∧ (length (o_builders (loadAPIGroupBuilders args scheme)) < length args)%nat.
Proof.
  intros Hg Hunknown. unfold loadAPIGroupBuilders.
  destruct (load_groups args []) as [bs e] eqn:Hload.
  pose proof (load_groups_length _ _ _ _ Hload) as (Hlen & Hok & Hbad).
  destruct e as [err|]; [|by destruct Hbad; eauto]. simpl.
  split; [done|]. split; [done|]. simpl in Hlen.
  destruct (decide (length bs = length args)) as [Heq|]; [|lia].
  exfalso. clear Hok Hbad Hlen.
  (* a loop that stopped with an error has appended fewer builders *)
  assert (∀ args bs0 bs1 err, load_groups args bs0 = (bs1, Some err) →
            (length bs1 < length bs0 + length args)%nat) as Hshort.
  { clear. intros args. induction args as [|g args IH]; intros bs0 bs1 err; simpl.
    - done.
    - repeat case_bool_decide.
      + intros Hl%IH. rewrite length_app in Hl. simpl in Hl. lia.
      + intros Hl%IH. rewrite length_app in Hl. simpl in Hl. lia.
      + destruct (InitializeDataSourceAPIServer g).
        * intros Hl%IH. rewrite length_app in Hl. simpl in Hl. lia.
        * intros [= <- _]. lia.
      + intros [= <- _]. lia. }
  apply Hshort in Hload. simpl in Hload. lia.
Qed.

Lemma loadAPIGroupBuilders_unknown_group_fails_witness :
  let args := ["example.grafana.app"; "dashboards.grafana.app"] in
  "dashboards.grafana.app" ∈ args ∧ ¬ known_group "dashboards.grafana.app"
  ∧ returned (@loadAPIGroupBuilders sample_builders args []) ≠ None
  ∧ the_scheme (@loadAPIGroupBuilders sample_builders args []) = []
  ∧ (length (o_builders (@loadAPIGroupBuilders sample_builders args []))
     < length args)%nat.
Proof.
  assert ("dashboards.grafana.app"
          ∈ ["example.grafana.app"; "dashboards.grafana.app"]) as Hin
    by compute_done.
  assert (¬ known_group "dashboards.grafana.app") as Hunknown
    by (by intros [?|[?|?]]).
  split; [exact Hin|]. split; [exact Hunknown|].
  exact (@loadAPIGroupBuilders_unknown_group_fails sample_builders
           ["example.grafana.app"; "dashboards.grafana.app"] []
           "dashboards.grafana.app" Hin Hunknown).
Defined.

(** * The tables of the SSO settings form *)

(** X18.  Every field a provider's form lists, by [fields] or by a section
    of [sectionFields], is a property of the object that [fieldMap]
    returns: the form never looks up a field that has no definition. *)
Theorem listed_fields_are_defined (provider f : string) :
  (∀ names, (provider, names) ∈ fields → f ∈ names → f ∈ fieldMap_keys)
  ∧ (∀ sections, (provider, sections) ∈ sectionFields →
       f ∈ section_field_names sections → f ∈ fieldMap_keys).
Proof.
  assert (Forall (λ entry, Forall (λ f, f ∈ fieldMap_keys) entry.2) fields)
    as Hfields by compute_done.
  assert (Forall (λ entry, Forall (λ f, f ∈ fieldMap_keys)
                             (section_field_names entry.2)) sectionFields)
    as Hsections by compute_done.
  rewrite Forall_forall in Hfields. rewrite Forall_forall in Hsections. split.
  - intros names Hentry Hf. specialize (Hfields _ Hentry).
    rewrite Forall_forall in Hfields. by apply Hfields.
  - intros sections Hentry Hf. specialize (Hsections _ Hentry).
    rewrite Forall_forall in Hsections. by apply Hsections.
Qed.

(** X19.  The sections of the [generic_oauth] form list every field that
    [fieldMap] defines exactly once: no field of [fieldMap] is left out of
    the form and none is shown twice. *)
Theorem generic_oauth_sections_list_every_field_once (sections : list FormSection) :
  ("generic_oauth", sections) ∈ sectionFields →
  NoDup (section_field_names sections)
  ∧ ∀ key, key ∈ fieldMap_keys ↔ key ∈ section_field_names sections.
Proof.
  intros Hentry. apply list_elem_of_singleton in Hentry as [= ->].
  split; [compute_done|].
  assert (Forall (λ key, key ∈ section_field_names generic_oauth_sections)
            fieldMap_keys) as Hall by compute_done.
  assert (Forall (λ key, key ∈ fieldMap_keys)
            (section_field_names generic_oauth_sections))
    as Hback by compute_done.
  rewrite Forall_forall in Hall. rewrite Forall_forall in Hback.
  intros key. split; auto.
Qed.

Lemma generic_oauth_sections_list_every_field_once_witness :
  ("generic_oauth", generic_oauth_sections) ∈ sectionFields
  ∧ NoDup (section_field_names generic_oauth_sections)
  ∧ ∀ key, key ∈ fieldMap_keys
           ↔ key ∈ section_field_names generic_oauth_sections.
Proof.
  assert (("generic_oauth", generic_oauth_sections) ∈ sectionFields) as Hentry
    by (apply list_elem_of_singleton; reflexivity).
  split; [exact Hentry|].
  exact (generic_oauth_sections_list_every_field_once
           generic_oauth_sections Hentry).
Defined.

(** X20.  In every section of [sectionFields], a field with [dependsOn] is
    listed after the field it depends on, and that field is listed in the
    same section without a [dependsOn] of its own. *)
Theorem dependent_fields_follow_their_switch
    (provider : string) (sections : list FormSection) (section : FormSection)
    (before after : list SSOSettingsField) (name dependsOn : string) :
  (provider, sections) ∈ sectionFields →
  section ∈ sections →
  section_fields section = before ++ DependentField name dependsOn :: after →
  Field dependsOn ∈ before.
Proof.
  intros Hentry Hsection Hfields.
  apply list_elem_of_singleton in Hentry as [= -> ->].
  repeat (apply elem_of_cons in Hsection as [->|Hsection]);
    [..|by apply elem_of_nil in Hsection]; simpl in Hfields;
    repeat (destruct before as [|? before];
            [try discriminate Hfields; injection Hfields as <- <- <-
            |injection Hfields as <- Hfields]);
    try (by destruct before);
    repeat first [apply list_elem_of_here | apply list_elem_of_further].
Qed.

Lemma dependent_fields_follow_their_switch_witness :
  let before := [Field "allowedOrganizations"; Field "allowedDomains";
                 Field "defineAllowedGroups"] in
  let after := [DependentField "groupsAttributePath" "defineAllowedGroups";
                Field "defineAllowedTeamsIds";
                DependentField "teamIds" "defineAllowedTeamsIds";
                DependentField "teamsUrl" "defineAllowedTeamsIds";
                DependentField "teamIdsAttributePath" "defineAllowedTeamsIds";
                Field "usePkce"; Field "useRefreshToken"] in
  ("generic_oauth", generic_oauth_sections) ∈ sectionFields
  ∧ extra_security_measures ∈ generic_oauth_sections
  ∧ section_fields extra_security_measures
    = before ++ DependentField "allowedGroups" "defineAllowedGroups" :: after
  ∧ Field "defineAllowedGroups" ∈ before.
Proof.
  assert (("generic_oauth", generic_oauth_sections) ∈ sectionFields) as Hentry
    by (apply list_elem_of_singleton; reflexivity).
  assert (extra_security_measures ∈ generic_oauth_sections) as Hsection
    by (do 2 apply list_elem_of_further; apply list_elem_of_here).
  split; [exact Hentry|]. split; [exact Hsection|]. split; [reflexivity|].
  exact (dependent_fields_follow_their_switch "generic_oauth"
           generic_oauth_sections extra_security_measures
           [Field "allowedOrganizations"; Field "allowedDomains";
            Field "defineAllowedGroups"]
           [DependentField "groupsAttributePath" "defineAllowedGroups";
            Field "defineAllowedTeamsIds";
            DependentField "teamIds" "defineAllowedTeamsIds";
            DependentField "teamsUrl" "defineAllowedTeamsIds";
            DependentField "teamIdsAttributePath" "defineAllowedTeamsIds";
            Field "usePkce"; Field "useRefreshToken"]
           "allowedGroups" "defineAllowedGroups" Hentry Hsection eq_refl).
Defined.

(** * More on the handlers and on the loading of groups *)

(** X21.  [onDelete] removes one variable only, the first one named [n]:
    the variables before and after it stay, in their order, also when a
    later variable has the same name. *)
Theorem onDelete_removes_only_the_first `{VariableKinds}
    (σ : EditorState) (n : string) :
  n ∈ names (variables σ) →
  ∃ σ' l1 v l2,
    onDelete n σ = Normal σ'
    ∧ variables σ = l1 ++ v :: l2 ∧ name (state v) = n ∧ (n ∉ names l1)
    ∧ variables σ' = l1 ++ l2
    ∧ console σ' = console σ.
Proof.
  intros (l1 & v & l2 & Hvs & Hv & Hfirst & Hdel)%onDelete_present.
  by eexists _, l1, v, l2.
Qed.

Lemma onDelete_removes_only_the_first_witness :
  let σ := Sample.editor [Sample.bar; Sample.foo; Sample.baz; Sample.foo] in
  "foo" ∈ names (variables σ)
  ∧ ∃ σ' l1 v l2,
      onDelete "foo" σ = Normal σ'
      ∧ variables σ = l1 ++ v :: l2 ∧ name (state v) = "foo"
      ∧ ("foo" ∉ names l1)
      ∧ variables σ' = l1 ++ l2
      ∧ console σ' = console σ.
Proof.
  assert ("foo" ∈ names [Sample.bar; Sample.foo; Sample.baz; Sample.foo])
    as Hin by compute_done.
  split; [exact Hin|].
  exact (@onDelete_removes_only_the_first Sample.kinds
           (Sample.editor [Sample.bar; Sample.foo; Sample.baz; Sample.foo])
           "foo" Hin).
Defined.

(** X22.  With a session open, [onDiscardChanges] writes a variable with
    the captured state over whatever variable stands at [editIndex] now,
    when the captured kind is editable and not built as an ad-hoc filter
    set; the other positions are untouched and the session is closed. *)
Theorem onDiscardChanges_overwrites_editIndex `{VariableKinds}
    (σ : EditorState) (i : Z) (s : SceneVariableState) (w : SceneVariable) :
  editIndex σ = Some i →
  originalVariableState σ = Some s →
  at_index (variables σ) i = Some w →
  isEditableVariableType (type s) = true →
  isAdHocKind (type s) = false →
  ∃ σ',
    onDiscardChanges σ = Normal σ'
    ∧ variables σ' = <[Z.to_nat i := {| state := s |}]> (variables σ)
    ∧ variables σ' !! Z.to_nat i = Some {| state := s |}
    ∧ session σ' = (None, None).
Proof.
  intros Hedit Hsnap Hw Heditable Hadhoc.
  rewrite (onDiscardChanges_open σ i s w), Heditable, Hadhoc by done.
  eexists. split; [done|]. simpl. split_and!; try done.
  apply list_lookup_insert_eq.
  apply at_index_Some in Hw as [_ Hw]. by eapply lookup_lt_Some.
Qed.

Lemma onDiscardChanges_overwrites_editIndex_witness :
  let σ := Sample.editing 0 Sample.foo [Sample.bar; Sample.foo] in
  editIndex σ = Some 0
  ∧ originalVariableState σ = Some (state Sample.foo)
  ∧ at_index (variables σ) 0 = Some Sample.bar
  ∧ isEditableVariableType (type (state Sample.foo)) = true
  ∧ isAdHocKind (type (state Sample.foo)) = false
  ∧ ∃ σ',
      onDiscardChanges σ = Normal σ'
      ∧ variables σ'
        = <[Z.to_nat 0 := {| state := state Sample.foo |}]> (variables σ)
      ∧ variables σ' !! Z.to_nat 0 = Some {| state := state Sample.foo |}
      ∧ session σ' = (None, None).
Proof.
  do 5 (split; [reflexivity|]).
  exact (@onDiscardChanges_overwrites_editIndex Sample.kinds
           (Sample.editing 0 Sample.foo [Sample.bar; Sample.foo])
           0 (state Sample.foo) Sample.bar eq_refl eq_refl eq_refl eq_refl
           eq_refl).
Defined.

Section load_known.
Context `{APIGroupBuilders}.

Lemma load_groups_known (args : list string) (bs : list APIGroupBuilder) :
  Forall known_group args →
  (∀ g, g ∈ args → ∀ err, InitializeDataSourceAPIServer g ≠ inr err) →
  ∃ bs', load_groups args bs = (bs', None)
         ∧ length bs' = (length bs + length args)%nat.
Proof.
  intros Hknown. revert bs.
  induction Hknown as [|g args Hg _ IH]; intros bs Hinit; simpl.
  - exists bs. split; [done|lia].
  - assert (∀ b, ∃ bs', load_groups args (bs ++ [b]) = (bs', None)
                        ∧ length bs' = (length bs + S (length args))%nat)
      as Hstep.
    { intros b. destruct (IH (bs ++ [b])) as (bs' & Hload & Hlen);
        [intros g' Hg'; apply Hinit; by apply list_elem_of_further|].
      exists bs'. split; [done|]. rewrite length_app in Hlen. simpl in Hlen.
      lia. }
    repeat case_bool_decide; try apply Hstep.
    + destruct (InitializeDataSourceAPIServer g) as [ds|err] eqn:Hds;
        [apply Hstep|].
      by destruct (Hinit g (list_elem_of_here _ _) err).
    + by destruct Hg as [?|[?|?]].
Qed.
End load_known.

(** X23.  When the groups before the first unknown group all load, the
    error of [loadAPIGroupBuilders] names that group ("unknown group: "
    and the name), [o.builders] is left with the builders of the groups
    before it, and no schema is installed. *)
Theorem loadAPIGroupBuilders_names_the_unknown_group `{APIGroupBuilders}
    (before after : list string) (g : string) (scheme : Scheme) :
  Forall known_group before →
  (∀ g', g' ∈ before → ∀ err, InitializeDataSourceAPIServer g' ≠ inr err) →
  ¬ known_group g →
  returned (loadAPIGroupBuilders (before ++ g :: after) scheme)
    = Some ("unknown group: " +:+ g)
  ∧ length (o_builders (loadAPIGroupBuilders (before ++ g :: after) scheme))
    = length before
  ∧ the_scheme (loadAPIGroupBuilders (before ++ g :: after) scheme) = scheme.
Proof.
  intros Hknown Hinit Hg.
  destruct (load_groups_known before [] Hknown Hinit) as (bs & Hload & Hlen).
  unfold loadAPIGroupBuilders. rewrite load_groups_app, Hload. simpl.
  unfold known_group in Hg.
  repeat case_bool_decide; try (by destruct Hg; auto). done.
Qed.

Lemma loadAPIGroupBuilders_names_the_unknown_group_witness :
  let before := ["example.grafana.app"; "featuretoggle.grafana.app"] in
  Forall known_group before
  ∧ (∀ g', g' ∈ before → ∀ err,
       @InitializeDataSourceAPIServer sample_builders g' ≠ inr err)
  ∧ ¬ known_group "query.grafana.app"
  ∧ returned (@loadAPIGroupBuilders sample_builders
                (before ++ "query.grafana.app" :: ["example.grafana.app"]) [])
    = Some ("unknown group: " +:+ "query.grafana.app")
  ∧ length (o_builders (@loadAPIGroupBuilders sample_builders
                (before ++ "query.grafana.app" :: ["example.grafana.app"]) []))
    = length before
  ∧ the_scheme (@loadAPIGroupBuilders sample_builders
                (before ++ "query.grafana.app" :: ["example.grafana.app"]) [])
    = [].
Proof.
  assert (Forall known_group
            ["example.grafana.app"; "featuretoggle.grafana.app"]) as Hknown.
  { apply Forall_cons. split; [by left|].
    apply Forall_cons. split; [by right; left|]. constructor. }
  assert (∀ g', g' ∈ ["example.grafana.app"; "featuretoggle.grafana.app"] →
            ∀ err, @InitializeDataSourceAPIServer sample_builders g' ≠ inr err)
    as Hinit by (intros g' _ err; discriminate).
  assert (¬ known_group "query.grafana.app") as Hg by (by intros [?|[?|?]]).
  split; [exact Hknown|]. split; [exact Hinit|]. split; [exact Hg|].
  exact (@loadAPIGroupBuilders_names_the_unknown_group sample_builders
           ["example.grafana.app"; "featuretoggle.grafana.app"]
           ["example.grafana.app"] "query.grafana.app" [] Hknown Hinit Hg).
Defined.
